(** * Thread-serialised batch dispatcher of [AssistantMessageQueue]

    A shallow embedding of [src/lib/assistant-message-queue.ts] and of
    [src/utils/redis-helper.ts] : the Thread Job Index kept in a Redis set,
    the thread lock kept in a Redis string, the BullMQ queue of delayed
    message jobs, the polling loop that drives one run of the external
    conversational service, and the batch processor built from them.

    Conventions of the embedding.
    - A JavaScript [number] that holds a [Date.now()] reading or a job
      timestamp is a [Z] (milliseconds); the polling delay, which the code
      multiplies by [1.5], is a [Q].  Every value the loop computes is a
      multiple of 1/64 below 2^15, so the double-precision arithmetic of the
      source is exact on it and agrees with [Q].
    - The Redis keyspace is split by value type: [sets] holds the sets, in
      the order [SMEMBERS] enumerates them, and [strs] holds the strings.
    - Calls to collaborators (the external service, BullMQ job methods, the
      tool-call handler, [setTimeout]) are recorded in the [trace] of the
      state; what a collaborator answers is given by an environment record.
    - [async] code is run sequentially.  Other workers, and the expiry of a
      lock, act only while a run is awaited: the environment supplies the
      change they make to the shared stores ([during_run]).
    - The polling loop consumes one recorded answer of the environment per
      iteration; a method whose answers run out is [Pending]. *)

From Stdlib Require Import ZArith QArith Qminmax Qround Lqa String Ascii List.
From stdpp Require Import gmap strings list sorting pretty.
From Equations Require Import Equations.

Local Open Scope string_scope.
Local Open Scope list_scope.
Local Open Scope Z_scope.

(** ** JavaScript values used by the source *)

Module Js.

(** [Boolean(s)] on a string: only the empty string is falsy. *)
Definition truthy (s : string) : bool := negb (String.eqb s "").

(** [x || d] where [x : string | undefined]. *)
Definition or_else (x : option string) (d : string) : string :=
  match x with
  | Some s => if truthy s then s else d
  | None => d
  end.

(** [`${n}`] and [n.toString()] for an integer-valued number (below 1e21 in
    absolute value, where JavaScript prints plain decimal digits). *)
Definition toString (n : Z) : string := pretty n.

Definition newline : string := String (ascii_of_nat 10) EmptyString.

(** [arr.join(sep)] *)
Definition join (sep : string) (arr : list string) : string :=
  String.concat sep arr.

(** [a < b] on strings: code-unit lexicographic order. *)
Definition str_lt (a b : string) : Prop := String.compare a b = Lt.

Section Sort.
Context {A : Type} (cmp : A → A → Z).

(** [Array.prototype.sort(cmp)]: a stable sort (ECMAScript 2019).  The
    element [x] stood before every element of [l] and stays before the
    ones it compares equal to. *)
Fixpoint sort_insert (x : A) (l : list A) : list A :=
  match l with
  | [] => [x]
  | y :: l' => if cmp x y <=? 0 then x :: l else y :: sort_insert x l'
  end.

Definition sort (l : list A) : list A := foldr sort_insert [] l.
End Sort.

(** [arr.slice(i, j)] for [0 <= i <= j]. *)
Definition slice {A} (i j : nat) (arr : list A) : list A :=
  take (j - i) (drop i arr).

End Js.

(** ** Data model ([src/types]) *)

Record MessageJobData := {
  threadId : string;
  message : string;
  timestamp : Z;
  instructions : option string
}.

(** A BullMQ [Job<MessageJobData>] as returned by [queue.getJob]. *)
Record Job := { job_id : string; job_data : MessageJobData }.

#[global] Instance MessageJobData_eq_dec : EqDecision MessageJobData.
Proof. solve_decision. Defined.

#[global] Instance Job_eq_dec : EqDecision Job.
Proof. solve_decision. Defined.

Record ToolCall := {
  tc_id : string;
  tc_type : string;
  tc_name : string;
  tc_arguments : string
}.

Record ToolOutput := { tool_call_id : string; output : string }.

Record ProcessingResult := {
  pr_threadId : string;
  messagesProcessed : nat;
  processedJobIds : list string;
  pr_runId : string;
  pr_status : string
}.

(** What the source throws, and what its collaborators reject with. *)
Inductive Error :=
| AlreadyProcessing (thread : string)
| RunTimeout (thread : string)
| RunEnded (status thread : string)
| TypeError
| External (what : string).

(** [handleRequiresAction]: the handler resolves to tool outputs or rejects. *)
Definition Handler : Type :=
  string → string → list ToolCall → Error + list ToolOutput.

Record Options := {
  queuePrefix : string;
  assistantId : string;
  messageDelay : Z;
  defaultInstructions : string;
  lockDuration : Z;
  handleRequiresAction : option Handler
}.

(** The ordering every caller applies: [(a, b) => a.data.timestamp - b.data.timestamp]. *)
Definition by_timestamp (a b : Job) : Z :=
  timestamp (job_data a) - timestamp (job_data b).

Definition ts_le (a b : Job) : Prop :=
  timestamp (job_data a) <= timestamp (job_data b).

(** [Math.max(x, ...xs)] *)
Definition Math_max (x : Z) (xs : list Z) : Z := foldr Z.max x xs.

(** ** The world the dispatcher runs in *)

(** A run as [runs.retrieve] reports it. *)
Record RequiredAction := { ra_type : string; ra_tool_calls : list ToolCall }.

Record RunSnapshot := {
  run_status : string;
  required_action : option RequiredAction
}.

(** Calls made to collaborators, in the order they are made. *)
Inductive Event :=
| EvCreateMessage (thread content : string)
| EvCreateRun (thread assistant : string) (instr : option string)
| EvSleep (started : Z) (delay : Q)
| EvRetrieve (thread run : string)
| EvHandler (thread run : string) (calls : list ToolCall)
| EvSubmitToolOutputs (thread run : string) (outputs : list ToolOutput)
| EvPromote (job : string)
| EvMoveToDelayed (job : string) (until : Z).

(** The stores every worker shares. *)
Record Shared := {
  queue : gmap string MessageJobData;
  sets : gmap string (list string);
  strs : gmap string string
}.

Record State := {
  shared : Shared;
  clock : Z;
  trace : list Event
}.

Definition with_queue (f : gmap string MessageJobData → gmap string MessageJobData)
    (s : State) : State :=
  {| shared := {| queue := f (queue (shared s));
                  sets := sets (shared s);
                  strs := strs (shared s) |};
     clock := clock s; trace := trace s |}.

Definition with_sets (f : gmap string (list string) → gmap string (list string))
    (s : State) : State :=
  {| shared := {| queue := queue (shared s);
                  sets := f (sets (shared s));
                  strs := strs (shared s) |};
     clock := clock s; trace := trace s |}.

Definition with_strs (f : gmap string string → gmap string string) (s : State) : State :=
  {| shared := {| queue := queue (shared s);
                  sets := sets (shared s);
                  strs := f (strs (shared s)) |};
     clock := clock s; trace := trace s |}.

Definition with_shared (f : Shared → Shared) (s : State) : State :=
  {| shared := f (shared s); clock := clock s; trace := trace s |}.

Definition log (e : Event) (s : State) : State :=
  {| shared := shared s; clock := clock s; trace := trace s ++ [e] |}.

Definition advance (ms : Z) (s : State) : State :=
  {| shared := shared s; clock := clock s + ms; trace := trace s |}.

(** ** Outcomes and the monad of the [async] methods

    [Pending] is the outcome of a method still awaiting: the recorded answers
    of the environment ran out before the method settled. *)

Inductive Outcome (A : Type) :=
| Returned (a : A)
| Thrown (e : Error)
| Pending.
Arguments Returned {A} a.
Arguments Thrown {A} e.
Arguments Pending {A}.

Definition M (A : Type) : Type := State → State * Outcome A.

Definition ret {A} (a : A) : M A := λ s, (s, Returned a).

Definition throw {A} (e : Error) : M A := λ s, (s, Thrown e).

Definition bind {A B} (m : M A) (k : A → M B) : M B :=
  λ s, match m s with
       | (s1, Returned a) => k a s1
       | (s1, Thrown e) => (s1, Thrown e)
       | (s1, Pending) => (s1, Pending)
       end.

#[global] Instance M_ret : MRet M := @ret.
#[global] Instance M_bind : MBind M := λ A B k m, bind m k.

Definition gets {A} (f : State → A) : M A := λ s, (s, Returned (f s)).

Definition modify (f : State → State) : M unit := λ s, (f s, Returned tt).

(** [try { body } finally { fin }] where [fin] itself does not throw: [fin]
    runs once [body] has settled, and the outcome of [body] is kept. *)
Definition try_finally {A} (body : M A) (fin : State → State) : M A :=
  λ s, match body s with
       | (s1, Pending) => (s1, Pending)
       | (s1, o) => (fin s1, o)
       end.

(** What the environment answers during one call of the worker callback. *)
Inductive Call :=
| CSetLastProcessed
| CCreateMessage
| CCreateRun
| CRemoveJob (job : string)
| CSRem
| CListJobs
| CPromote
| CMoveToDelayed.

Record PollStep := {
  slept : Z;
  latency : Z;
  retrieved : Error + RunSnapshot;
  submitted : option Error
}.

Record Env := {
  fails : Call → option Error;
  created_run : string;
  polls : list PollStep;
  during_run : Shared → Shared
}.

(** A command that the environment may reject; it takes effect when it is
    not rejected. *)
Definition attempt (env : Env) (c : Call) (effect : State → State) : M unit :=
  λ s, match fails env c with
       | Some e => (s, Thrown e)
       | None => (effect s, Returned tt)
       end.

(** A call to a collaborator: the call is made, then the environment may
    reject it. *)
Definition call (env : Env) (c : Call) (ev : Event) : M unit :=
  λ s, match fails env c with
       | Some e => (log ev s, Thrown e)
       | None => (log ev s, Returned tt)
       end.

(** [await Promise.all(ms)]: every action runs; the first rejection, if any,
    is the outcome. *)
Fixpoint promise_all (ms : list (M unit)) : M unit :=
  match ms with
  | [] => ret tt
  | m :: rest =>
      λ s, match m s with
           | (s1, Returned _) => promise_all rest s1
           | (s1, Thrown e) => (fst (promise_all rest s1), Thrown e)
           | (s1, Pending) => (s1, Pending)
           end
  end.

(** ** Redis commands *)

Module Redis.

(** [SET key value NX EX ttl]: expiry is an act of the environment. *)
Definition set_nx (key value : string) : M bool :=
  λ s, match strs (shared s) !! key with
       | Some _ => (s, Returned false)
       | None => (with_strs (insert key value) s, Returned true)
       end.

Definition set (key value : string) (s : State) : State :=
  with_strs (insert key value) s.

Definition get (key : string) (s : State) : option string :=
  strs (shared s) !! key.

Definition del (key : string) (s : State) : State :=
  with_strs (delete key) s.

(** [EXISTS key]: the number of keys that exist.  It is asked of lock keys
    only, which never name a set. *)
Definition exists_ (key : string) (s : State) : Z :=
  match strs (shared s) !! key with Some _ => 1 | None => 0 end.

(** [SADD key member].  A new member is enumerated last here; Redis promises
    no order, and [sets] may hold the members in any order. *)
Definition sAdd (key member : string) (s : State) : State :=
  with_sets (λ m, match m !! key with
                  | Some l => if decide (member ∈ l) then m else <[key := l ++ [member]]> m
                  | None => <[key := [member]]> m
                  end) s.

(** [SMEMBERS key] *)
Definition sMembers (key : string) (s : State) : list string :=
  default [] (sets (shared s) !! key).

(** [SREM key members]: a set left empty is removed. *)
Definition sRem (key : string) (members : list string) (s : State) : State :=
  with_sets (λ m, match m !! key with
                  | Some l =>
                      let l' := filter (λ x, x ∉ members) l in
                      match l' with [] => delete key m | _ => <[key := l']> m end
                  | None => m
                  end) s.

End Redis.

(** ** Keys and job ids *)

Definition threadJobs_key (opts : Options) (thread : string) : string :=
  queuePrefix opts +:+ ":threadJobs:" +:+ thread.

Definition lock_key (opts : Options) (thread : string) : string :=
  queuePrefix opts +:+ ":lock_thread_" +:+ thread.

Definition last_processed_key (opts : Options) (thread : string) : string :=
  queuePrefix opts +:+ ":last_processed_" +:+ thread.

(** [`thread_${threadId}_${timestamp}`] *)
Definition jobId_of (thread : string) (ts : Z) : string :=
  "thread_" +:+ thread +:+ "_" +:+ Js.toString ts.

(** ** BullMQ queue and jobs *)

(** [queue.add(jobId, data, { jobId, ... })]: an id already in the queue is
    not added again. *)
Definition queue_add (id : string) (data : MessageJobData) (s : State) : State :=
  with_queue (λ q, match q !! id with Some _ => q | None => <[id := data]> q end) s.

(** [queue.getJob(id)]: [None] is the [undefined] of a job no longer there. *)
Definition getJob (s : State) (id : string) : option Job :=
  (λ d, {| job_id := id; job_data := d |}) <$> queue (shared s) !! id.

Definition job_remove (env : Env) (job : Job) : M unit :=
  attempt env (CRemoveJob (job_id job)) (with_queue (delete (job_id job))).

Definition job_promote (env : Env) (job : Job) : M unit :=
  call env CPromote (EvPromote (job_id job)).

Definition job_moveToDelayed (env : Env) (job : Job) (until : Z) : M unit :=
  call env CMoveToDelayed (EvMoveToDelayed (job_id job) until).

(** ** Thread Job Index *)

(** [addMessageToThread] (lines 182-209) *)
Definition addMessageToThread (opts : Options) (thread msg : string)
    (instr : option string) : M string :=
  ts ← gets clock;
  let jobId := jobId_of thread ts in
  modify (queue_add jobId
            {| threadId := thread; message := msg; timestamp := ts; instructions := instr |});;
  modify (Redis.sAdd (threadJobs_key opts thread) jobId);;
  mret jobId.

Definition batchSize : nat := 20.

(** The loop [for (let i = 0; i < jobIds.length; i += batchSize)] of
    [getJobsByThreadId]: the successive [batchIds]. *)
Equations? fetch_batches (jobIds : list string) (i : nat) : list (list string)
    by wf (length jobIds - i)%nat lt :=
  fetch_batches jobIds i with decide (i < length jobIds)%nat => {
    | left _ := Js.slice i (i + batchSize) jobIds :: fetch_batches jobIds (i + batchSize);
    | right _ := [] }.
Proof. unfold batchSize. lia. Qed.

(** [batchJobs.filter(Boolean)] after [Promise.all(batchIds.map(getJob))] *)
Definition fetch_batch (s : State) (batchIds : list string) : list Job :=
  omap (getJob s) batchIds.

(** [getJobsByThreadId] (lines 217-240) *)
Definition getJobsByThreadId (opts : Options) (thread : string) (s : State) : list Job :=
  let jobIds := Redis.sMembers (threadJobs_key opts thread) s in
  match jobIds with
  | [] => []
  | _ => concat (map (fetch_batch s) (fetch_batches jobIds 0))
  end.

(** [getNewerJobsByThreadId] (lines 249-256) *)
Definition getNewerJobsByThreadId (opts : Options) (thread : string) (ts : Z)
    (s : State) : list Job :=
  let allJobs := getJobsByThreadId opts thread s in
  Js.sort by_timestamp (filter (λ job, timestamp (job_data job) > ts) allJobs).

(** [removeJobsFromThreadIndex] (lines 264-272) *)
Definition removeJobsFromThreadIndex (opts : Options) (env : Env) (thread : string)
    (jobIds : list string) : M unit :=
  match jobIds with
  | [] => mret tt
  | _ => attempt env CSRem (Redis.sRem (threadJobs_key opts thread) jobIds)
  end.

(** ** Distributed lock ([src/utils/redis-helper.ts]) *)

Definition acquireLock (lockKey lockValue : string) : M bool :=
  Redis.set_nx lockKey lockValue.

Definition releaseLock (lockKey lockValue : string) : M bool :=
  currentLock ← gets (Redis.get lockKey);
  if decide (currentLock = Some lockValue)
  then modify (Redis.del lockKey);; mret true
  else mret false.

Definition lockExists (lockKey : string) : M bool :=
  n ← gets (Redis.exists_ lockKey); mret (bool_decide (n > 0)).

(** ** Run State Machine: [waitForRunCompletion] (lines 281-338) *)

Definition initialDelay : Q := 1000%Q.
Definition maxDelay : Q := 15000%Q.
Definition maxWaitTime : Z := 300000.

(** [delay = Math.min(delay * 1.5, maxDelay)] *)
Definition nextDelay (delay : Q) : Q := Qmin (delay * 1.5) maxDelay.

(** The delay slept in iteration [n] of the loop. *)
Fixpoint delay_at (n : nat) : Q :=
  match n with
  | O => initialDelay
  | S n' => nextDelay (delay_at n')
  end.

(** [["in_progress", "queued"].includes(status)] *)
Definition polling (status : string) : bool :=
  bool_decide (status ∈ ["in_progress"; "queued"]).

(** The tool calls handed to the handler (lines 304-311). *)
Definition toToolCall (raw : ToolCall) : ToolCall :=
  {| tc_id := tc_id raw; tc_type := "function";
     tc_name := tc_name raw; tc_arguments := tc_arguments raw |}.

(** [await new Promise(resolve => setTimeout(resolve, delay))] *)
Definition sleep (delay : Q) (took : Z) (s : State) : State :=
  advance took (log (EvSleep (clock s) delay) s).

(** [await this.openai.beta.threads.runs.retrieve(threadId, runId)] *)
Definition retrieve (thread run : string) (took : Z) (s : State) : State :=
  advance took (log (EvRetrieve thread run) s).

(** The [while] loop, one environment step per iteration. *)
Fixpoint poll_loop (opts : Options) (thread run : string) (startTime : Z)
    (script : list PollStep) (status : string) (delay : Q) (s : State)
    : State * Outcome string :=
  if polling status then
    if clock s - startTime >? maxWaitTime then (s, Thrown (RunTimeout thread))
    else
      match script with
      | [] => (s, Pending)
      | p :: rest =>
          let s1 := sleep delay (slept p) s in
          let s2 := retrieve thread run (latency p) s1 in
          match retrieved p with
          | inl e => (s2, Thrown e)
          | inr checkRun =>
              let status1 := run_status checkRun in
              let continue := poll_loop opts thread run startTime rest status1
                                (nextDelay delay) s2 in
              if bool_decide (status1 = "requires_action") then
                match handleRequiresAction opts with
                | Some handler =>
                    match required_action checkRun with
                    | Some ra =>
                        if bool_decide (ra_type ra = "submit_tool_outputs") then
                          let toolCalls := map toToolCall (ra_tool_calls ra) in
                          let s3 := log (EvHandler thread run toolCalls) s2 in
                          match handler thread run toolCalls with
                          | inl e => (s3, Thrown e)
                          | inr toolOutputs =>
                              let s4 := log (EvSubmitToolOutputs thread run toolOutputs) s3 in
                              match submitted p with
                              | Some e => (s4, Thrown e)
                              | None =>
                                  poll_loop opts thread run startTime rest "in_progress"
                                    (nextDelay delay) s4
                              end
                          end
                        else continue
                    | None => continue
                    end
                | None => continue
                end
              else continue
          end
      end
  else if bool_decide (status = "completed") then (s, Returned status)
  else (s, Thrown (RunEnded status thread)).

Definition waitForRunCompletion (opts : Options) (env : Env) (thread run : string)
    : M string :=
  λ s, poll_loop opts thread run (clock s) (polls env) "in_progress" initialDelay s.

(** ** External service calls made by the batch processor *)

(** [createMessage] (lines 106-111) *)
Definition createMessage (env : Env) (thread content : string) : M unit :=
  call env CCreateMessage (EvCreateMessage thread content).

(** [...(options?.instructions && { instructions: options.instructions })] *)
Definition run_instructions (instr : string) : option string :=
  if Js.truthy instr then Some instr else None.

(** [createRun] (lines 120-131) *)
Definition createRun (opts : Options) (env : Env) (thread : string) (instr : string)
    : M string :=
  call env CCreateRun (EvCreateRun thread (assistantId opts) (run_instructions instr));;
  mret (created_run env).

(** ** Batch Processor: [processMessages] (lines 347-419) *)

(** The [finally] block (lines 411-418). *)
Definition release_own_lock (lockKey lockValue : string) (s : State) : State :=
  let currentLock := Redis.get lockKey s in
  if decide (currentLock = Some lockValue) then Redis.del lockKey s else s.

(** The run is awaited; other workers act on the shared stores meanwhile. *)
Definition await_run (opts : Options) (env : Env) (thread run : string) : M string :=
  λ s, let '(s1, o) := waitForRunCompletion opts env thread run s in
       (with_shared (during_run env) s1, o).

(** Lines 385-407 of the [try] block: what follows a completed run.  [jobs]
    is the sorted batch and [maxTimestamp] the mark taken before the run.
    [CListJobs] stands for the reads of [getNewerJobsByThreadId], which the
    environment may reject like any other call. *)
Definition after_run (opts : Options) (env : Env) (thread : string)
    (jobs : list Job) (maxTimestamp : Z) (run status : string) : M ProcessingResult :=
  let jobIds := filter (λ id, Js.truthy id) (map job_id jobs) in
  promise_all (map (job_remove env) jobs);;
  removeJobsFromThreadIndex opts env thread jobIds;;
  attempt env CListJobs (λ s, s);;
  newerJobs ← gets (getNewerJobsByThreadId opts thread maxTimestamp);
  match newerJobs with
  | oldest :: _ => job_promote env oldest
  | [] => mret tt
  end;;
  mret {| pr_threadId := thread;
          messagesProcessed := length jobs;
          processedJobIds := jobIds;
          pr_runId := run;
          pr_status := status |}.

(** The [try] block (lines 363-407).  On an empty array the read of
    [jobs[jobs.length - 1].data] throws. *)
Definition processMessages_try (opts : Options) (env : Env) (thread : string)
    (jobs : list Job) : M ProcessingResult :=
  let jobs := Js.sort by_timestamp jobs in
  let messages := map (λ job, message (job_data job)) jobs in
  let combinedMessage := Js.join Js.newline messages in
  match jobs with
  | [] => throw TypeError
  | first :: rest =>
      let lastJob := default first (last rest) in
      let instr := Js.or_else (instructions (job_data lastJob)) (defaultInstructions opts) in
      let maxTimestamp :=
        Math_max (timestamp (job_data first)) (map (λ job, timestamp (job_data job)) rest) in
      attempt env CSetLastProcessed
        (Redis.set (last_processed_key opts thread) (Js.toString maxTimestamp));;
      createMessage env thread combinedMessage;;
      run ← createRun opts env thread instr;
      status ← await_run opts env thread run;
      after_run opts env thread jobs maxTimestamp run status
  end.

Definition processMessages (opts : Options) (env : Env) (thread : string)
    (jobs : list Job) : M ProcessingResult :=
  let lockKey := lock_key opts thread in
  processingTimestamp ← gets clock;
  let lockValue := Js.toString processingTimestamp in
  lock ← Redis.set_nx lockKey lockValue;
  if negb lock then throw (AlreadyProcessing thread)
  else try_finally (processMessages_try opts env thread jobs)
                   (release_own_lock lockKey lockValue).

(** ** Worker callback of [startWorker] (lines 435-463) *)

Definition worker (opts : Options) (env : Env) (job : Job)
    : M (option ProcessingResult) :=
  let thread := threadId (job_data job) in
  let jobId := job_id job in
  relatedJobs ← gets (getJobsByThreadId opts thread);
  match relatedJobs with
  | [] => mret None
  | _ =>
      let relatedJobs := Js.sort by_timestamp relatedJobs in
      let lockKey := lock_key opts thread in
      isLocked ← gets (Redis.exists_ lockKey);
      if bool_decide (isLocked ≠ 0) then
        now ← gets clock;
        job_moveToDelayed env job (now + 5000);;
        mret None
      else
        match relatedJobs with
        | oldest :: _ =>
            if bool_decide (job_id oldest ≠ jobId) then mret None
            else result ← processMessages opts env thread relatedJobs; mret (Some result)
        | [] => throw TypeError
        end
  end.

(** ** The stand-alone [waitForRunCompletion] ([src/utils/redis-helper.ts], lines 84-125) *)

Module Helper.

(** The [options] argument; [None] is a field left [undefined]. *)
Record WaitOptions := {
  initialDelay : option Q;
  maxDelay : option Q;
  maxWaitTime : option Q
}.

(** [options = {}] *)
Definition no_options : WaitOptions :=
  {| initialDelay := None; maxDelay := None; maxWaitTime := None |}.

(** [["in_progress", "queued", "requires_action"].includes(status)] *)
Definition polling (status : string) : bool :=
  bool_decide (status ∈ ["in_progress"; "queued"; "requires_action"]).

(** [Date.now() - startTime > maxWaitTime] *)
Definition timed_out (startTime : Z) (maxWaitTime : Q) (s : State) : bool :=
  negb (Qle_bool (inject_Z (clock s - startTime)) maxWaitTime).

(** The [while] loop, one environment step per iteration. *)
Fixpoint poll_loop (maxDelay maxWaitTime : Q) (thread run : string) (startTime : Z)
    (script : list PollStep) (status : string) (delay : Q) (s : State)
    : State * Outcome string :=
  if polling status then
    if timed_out startTime maxWaitTime s then (s, Thrown (RunTimeout thread))
    else
      match script with
      | [] => (s, Pending)
      | p :: rest =>
          let s1 := sleep delay (slept p) s in
          let s2 := retrieve thread run (latency p) s1 in
          match retrieved p with
          | inl e => (s2, Thrown e)
          | inr checkRun =>
              poll_loop maxDelay maxWaitTime thread run startTime rest
                (run_status checkRun) (Qmin (delay * 1.5) maxDelay) s2
          end
      end
  else if bool_decide (status = "completed") then (s, Returned status)
  else (s, Thrown (RunEnded status thread)).

Definition waitForRunCompletion (options : WaitOptions) (env : Env)
    (thread run : string) : M string :=
  λ s, poll_loop (default 15000%Q (maxDelay options))
         (default 300000%Q (maxWaitTime options))
         thread run (clock s) (polls env) "in_progress"
         (default 1000%Q (initialDelay options)) s.

End Helper.

(** ** A sample deployment, used to run the definitions *)

Module Sample.

Definition opts : Options :=
  {| queuePrefix := "assistant";
     assistantId := "asst_1";
     messageDelay := 10000;
     defaultInstructions := "Reply to all messages logically.";
     lockDuration := 300000;
     handleRequiresAction := None |}.

(** A handler that answers every tool call with the call's arguments. *)
Definition echo : Handler :=
  λ _ _ calls,
    inr (map (λ c, {| tool_call_id := tc_id c; output := tc_arguments c |}) calls).

Definition opts_with_handler : Options :=
  {| queuePrefix := "assistant";
     assistantId := "asst_1";
     messageDelay := 10000;
     defaultInstructions := "Reply to all messages logically.";
     lockDuration := 300000;
     handleRequiresAction := Some echo |}.

Definition t0 : Z := 1700000000000.

Definition start : State :=
  {| shared := {| queue := ∅; sets := ∅; strs := ∅ |}; clock := t0; trace := [] |}.

Definition data_A : MessageJobData :=
  {| threadId := "T1"; message := "A"; timestamp := t0; instructions := None |}.
Definition data_B : MessageJobData :=
  {| threadId := "T1"; message := "B"; timestamp := t0 + 5;
     instructions := Some "Be brief." |}.
Definition data_C : MessageJobData :=
  {| threadId := "T1"; message := "C"; timestamp := t0 + 12; instructions := Some "" |}.

Definition job_A : Job := {| job_id := jobId_of "T1" t0; job_data := data_A |}.
Definition job_B : Job := {| job_id := jobId_of "T1" (t0 + 5); job_data := data_B |}.
Definition job_C : Job := {| job_id := jobId_of "T1" (t0 + 12); job_data := data_C |}.

(** "A", "B" and "C" submitted to thread T1 at [t0], [t0 + 5] and [t0 + 12];
    the state when the delay of "A" has elapsed. *)
Definition after_ABC : State :=
  let s1 := fst (addMessageToThread opts "T1" "A" None start) in
  let s2 := fst (addMessageToThread opts "T1" "B" (Some "Be brief.") (advance 5 s1)) in
  let s3 := fst (addMessageToThread opts "T1" "C" (Some "") (advance 7 s2)) in
  advance 9988 s3.

Definition completed : RunSnapshot :=
  {| run_status := "completed"; required_action := None |}.

Definition in_progress : RunSnapshot :=
  {| run_status := "in_progress"; required_action := None |}.

Definition poll (took : Z) (r : RunSnapshot) : PollStep :=
  {| slept := took; latency := 0; retrieved := inr r; submitted := None |}.

(** The service completes the run at the first poll; nothing is rejected and
    no other worker acts. *)
Definition calm : Env :=
  {| fails := λ _, None;
     created_run := "run_1";
     polls := [poll 1000 completed];
     during_run := λ sh, sh |}.

(** A run that pauses once for two tool calls and then completes. *)
Definition two_calls : list ToolCall :=
  [ {| tc_id := "call_1"; tc_type := "function"; tc_name := "lookup";
       tc_arguments := "{1}" |};
    {| tc_id := "call_2"; tc_type := "function"; tc_name := "lookup";
       tc_arguments := "{2}" |} ].

Definition needs_tools : RunSnapshot :=
  {| run_status := "requires_action";
     required_action :=
       Some {| ra_type := "submit_tool_outputs"; ra_tool_calls := two_calls |} |}.

Definition tooling : Env :=
  {| fails := λ _, None;
     created_run := "run_1";
     polls := [poll 1000 needs_tools; poll 1500 completed];
     during_run := λ sh, sh |}.

(** A run still in progress at every poll but the last; each sleep lasts its
    delay rounded down to a whole millisecond and the calls take no time. *)
Definition slow : Env :=
  {| fails := λ _, None;
     created_run := "run_1";
     polls := map (λ ms, poll ms in_progress) [1000; 1500; 2250; 3375; 5062; 7593; 11390]
              ++ replicate 17 (poll 15000 in_progress)
              ++ [poll 15000 completed];
     during_run := λ sh, sh |}.

(** "A" and "B" are queued for T1 and [SMEMBERS], which enumerates a set in
    no particular order, lists the id of "B" first. *)
Definition shuffled : State :=
  {| shared := {| queue := <[job_id job_A := data_A]> (<[job_id job_B := data_B]> ∅);
                  sets := <[threadJobs_key opts "T1" := [job_id job_B; job_id job_A]]> ∅;
                  strs := ∅ |};
     clock := t0 + 10000;
     trace := [] |}.

(** The service rejects the creation of the run. *)
Definition rejecting : Env :=
  {| fails := λ c, match c with CCreateRun => Some (External "503") | _ => None end;
     created_run := "run_1";
     polls := [];
     during_run := λ sh, sh |}.

(** The lock expires during the run and another worker takes it. *)
Definition takeover : Env :=
  {| fails := λ _, None;
     created_run := "run_1";
     polls := [poll 1000 completed];
     during_run := λ sh,
       {| queue := queue sh; sets := sets sh;
          strs := <[lock_key opts "T1" := "another owner"]> (strs sh) |} |}.

(** "D" is submitted to T1 while the run of the first batch is awaited. *)
Definition data_D : MessageJobData :=
  {| threadId := "T1"; message := "D"; timestamp := t0 + 10500; instructions := None |}.

Definition job_D : Job := {| job_id := jobId_of "T1" (t0 + 10500); job_data := data_D |}.

Definition late_arrival (sh : Shared) : Shared :=
  {| queue := <[job_id job_D := data_D]> (queue sh);
     sets := <[threadJobs_key opts "T1" :=
                 default [] (sets sh !! threadJobs_key opts "T1") ++ [job_id job_D]]>
               (sets sh);
     strs := strs sh |}.

Definition busy : Env :=
  {| fails := λ _, None;
     created_run := "run_1";
     polls := [poll 1000 completed];
     during_run := late_arrival |}.

(** The service reports the run as failed at the first poll. *)
Definition failed : RunSnapshot :=
  {| run_status := "failed"; required_action := None |}.

Definition failing : Env :=
  {| fails := λ _, None;
     created_run := "run_1";
     polls := [poll 1000 failed];
     during_run := λ sh, sh |}.

End Sample.

(** ** Vocabulary of the statements *)

(** [m] only appends to the trace, and every call it records satisfies [P]. *)
Definition emits {A} (P : Event → Prop) (m : M A) : Prop :=
  ∀ s, ∃ evs, trace (fst (m s)) = trace s ++ evs ∧ Forall P evs.

(** [m] leaves the observation [f] of the state as it found it. *)
Definition preserves {A X} (f : State → X) (m : M A) : Prop :=
  ∀ s, f (fst (m s)) = f s.

(** [m] leaves the shared stores alone. *)
Definition keeps_shared {A} (m : M A) : Prop := preserves shared m.

(** The method settled with a result. *)
Definition returned {A} (o : Outcome A) : bool :=
  match o with Returned _ => true | _ => false end.

(** The value stored under a Redis string key. *)
Definition stored (key : string) (s : State) : option string :=
  strs (shared s) !! key.

Definition is_promote (e : Event) : Prop :=
  match e with EvPromote _ => True | _ => False end.

Definition is_poll_event (e : Event) : Prop :=
  match e with
  | EvSleep _ _ | EvRetrieve _ _ | EvHandler _ _ _ | EvSubmitToolOutputs _ _ _ => True
  | _ => False
  end.

(** The delays of the sleeps among [evs], in order. *)
Definition sleep_delays (evs : list Event) : list Q :=
  omap (λ e, match e with EvSleep _ d => Some d | _ => None end) evs.

(** Every sleep among [evs] began within [ceiling] ms of [startTime] and was
    asked to last at most [maxDelay]. *)
Definition sleeps_within (startTime ceiling : Z) (evs : list Event) : Prop :=
  Forall (λ e, match e with
               | EvSleep started d => started - startTime <= ceiling ∧ (d <= maxDelay)%Q
               | _ => True
               end) evs.

(** Decimal numerals: the digits of a string and the number they denote. *)
Definition is_digit (c : ascii) : Prop := (48 <= N_of_ascii c <= 57)%N.

Fixpoint is_digits (s : string) : Prop :=
  match s with
  | EmptyString => True
  | String c s' => is_digit c ∧ is_digits s'
  end.

Fixpoint dec_val_acc (acc : N) (s : string) : N :=
  match s with
  | EmptyString => acc
  | String c s' => dec_val_acc (10 * acc + (N_of_ascii c - 48)) s'
  end.

Definition dec_val (s : string) : N := dec_val_acc 0 s.

(** The string [s] does not contain the character [c]. *)
Fixpoint lacks (c : ascii) (s : string) : Prop :=
  match s with
  | EmptyString => True
  | String c' s' => c' ≠ c ∧ lacks c s'
  end.

(** [m] takes every state to a state related to it by [R]. *)
Definition relates {A} (R : State → State → Prop) (m : M A) : Prop :=
  ∀ s, R s (fst (m s)).

(** The ids indexed for a thread. *)
Definition index_of (opts : Options) (thread : string) (s : State) : list string :=
  Redis.sMembers (threadJobs_key opts thread) s.

(** No other worker touches the queue or the index during the run. *)
Definition quiet (env : Env) : Prop :=
  ∀ sh, queue (during_run env sh) = queue sh ∧ sets (during_run env sh) = sets sh.

(** The shape of the stores that [addMessageToThread] builds: every id
    indexed for a thread is an id of that thread, indexed once, and a job
    stored under an id of a thread carries that thread and that timestamp. *)
Definition well_formed (opts : Options) (s : State) : Prop :=
  (∀ thread id, id ∈ index_of opts thread s → ∃ ts, id = jobId_of thread ts) ∧
  (∀ thread, NoDup (index_of opts thread s)) ∧
  (∀ thread ts d, queue (shared s) !! jobId_of thread ts = Some d →
                  threadId d = thread ∧ timestamp d = ts).

(** The index and the listing of [thread'] are kept, as long as the stores
    are well formed. *)
Definition leaves_alone (opts : Options) (thread' : string) (a b : State) : Prop :=
  well_formed opts a →
  well_formed opts b ∧
  index_of opts thread' b = index_of opts thread' a ∧
  getJobsByThreadId opts thread' b = getJobsByThreadId opts thread' a.

Definition keeps_job (id : string) (d : MessageJobData) (a b : State) : Prop :=
  queue (shared a) !! id = Some d → queue (shared b) !! id = Some d.

Definition keeps_indexed (opts : Options) (thread id : string) (a b : State) : Prop :=
  id ∈ index_of opts thread a → id ∈ index_of opts thread b.

(** No poll of the script reports the run as completed. *)
Definition never_completed (script : list PollStep) : Prop :=
  Forall (λ p, ∀ checkRun, retrieved p = inr checkRun → run_status checkRun ≠ "completed")
    script.

(** From [a] to [b] the queue and the indexes are the same, and nothing was
    promoted. *)
Definition untouched (a b : State) : Prop :=
  queue (shared b) = queue (shared a) ∧
  sets (shared b) = sets (shared a) ∧
  ∃ evs, trace b = trace a ++ evs ∧ Forall (λ e, ¬ is_promote e) evs.

(** The number of polls ([runs.retrieve]) among [evs]. *)
Definition polls_made (evs : list Event) : nat :=
  length (omap (λ e, match e with EvRetrieve _ _ => Some e | _ => None end) evs).

(** [setTimeout] truncates its delay to whole milliseconds.  The timers are
    timely when the sleep of each iteration, from iteration [n] on, lasts at
    least its truncated delay, and no call makes the clock go back. *)
Fixpoint timely (n : nat) (script : list PollStep) : Prop :=
  match script with
  | [] => True
  | p :: rest => Qfloor (delay_at n) <= slept p ∧ 0 <= latency p ∧ timely (S n) rest
  end.

(** The time spent, at least, in the sleeps of the first [n] iterations. *)
Fixpoint waited (n : nat) : Z :=
  match n with
  | O => 0
  | S n' => waited n' + Qfloor (delay_at n')
  end.

(** No poll of the script reports the status [status]. *)
Definition never_reports (status : string) (script : list PollStep) : Prop :=
  Forall (λ p, ∀ checkRun, retrieved p = inr checkRun → run_status checkRun ≠ status)
    script.

(** Every poll of the script is answered, with the status [status]. *)
Definition always_reports (status : string) (script : list PollStep) : Prop :=
  Forall (λ p, ∃ checkRun, retrieved p = inr checkRun ∧ run_status checkRun = status)
    script.

(** * Properties *)

(** ** The stable sort by timestamp *)

Section SortFacts.
Context {A : Type} (cmp : A → A → Z).

Lemma sort_insert_perm (x : A) (l : list A) : Js.sort_insert cmp x l ≡ₚ x :: l.
Proof.
  induction l as [|y l IH]; simpl; [done|].
  destruct (cmp x y <=? 0); [done|].
  rewrite IH. apply Permutation_swap.
Qed.

Lemma sort_perm (l : list A) : Js.sort cmp l ≡ₚ l.
Proof.
  induction l as [|x l IH]; simpl; [done|].
  rewrite sort_insert_perm. by f_equiv.
Qed.

Lemma sort_nil_inv (l : list A) : Js.sort cmp l = [] → l = [].
Proof.
  intros H. apply Permutation_nil_r. rewrite <- H. symmetry. apply sort_perm.
Qed.

Lemma sort_elem_of (x : A) (l : list A) : x ∈ Js.sort cmp l ↔ x ∈ l.
Proof. by rewrite sort_perm. Qed.

End SortFacts.

Lemma ts_le_trans (a b c : Job) : ts_le a b → ts_le b c → ts_le a c.
Proof. unfold ts_le. lia. Qed.

Lemma sort_insert_sorted (x : Job) (l : list Job) :
  StronglySorted ts_le l → StronglySorted ts_le (Js.sort_insert by_timestamp x l).
Proof.
  induction 1 as [|y l Hl IH Hy]; simpl.
  - repeat constructor.
  - destruct (Z.leb_spec (by_timestamp x y) 0) as [Hle|Hgt].
    + constructor; [by constructor|].
      assert (ts_le x y) by (unfold by_timestamp, ts_le in *; lia).
      constructor; [done|].
      eapply Forall_impl; [exact Hy|]. intros z Hz. by eapply ts_le_trans.
    + constructor; [done|].
      rewrite sort_insert_perm. constructor; [|done].
      unfold by_timestamp, ts_le in *. lia.
Qed.

Lemma sort_sorted (l : list Job) : StronglySorted ts_le (Js.sort by_timestamp l).
Proof.
  induction l as [|x l IH]; simpl; [constructor|]. by apply sort_insert_sorted.
Qed.

(** The sort is stable: jobs of equal timestamp keep their order. *)
Lemma sort_insert_stable (t : Z) (x : Job) (l : list Job) :
  filter (λ j, timestamp (job_data j) = t) (Js.sort_insert by_timestamp x l)
  = filter (λ j, timestamp (job_data j) = t) (x :: l).
Proof.
  induction l as [|y l IH]; simpl; [done|].
  destruct (Z.leb_spec (by_timestamp x y) 0) as [Hle|Hgt]; [done|].
  rewrite (filter_cons _ y), IH, !(filter_cons _ x), (filter_cons _ y).
  unfold by_timestamp in Hgt.
  repeat case_decide; try done; lia.
Qed.

Lemma sort_stable (t : Z) (l : list Job) :
  filter (λ j, timestamp (job_data j) = t) (Js.sort by_timestamp l)
  = filter (λ j, timestamp (job_data j) = t) l.
Proof.
  induction l as [|x l IH]; simpl; [done|].
  by rewrite sort_insert_stable, !filter_cons, IH.
Qed.

(** The head of a sorted array is its oldest job and its last element the
    most recent one. *)
Lemma sorted_head_oldest (first : Job) (rest : list Job) :
  StronglySorted ts_le (first :: rest) → ∀ j, j ∈ first :: rest → ts_le first j.
Proof.
  intros Hs j Hj. apply StronglySorted_inv in Hs as [_ Hall].
  apply elem_of_cons in Hj as [->|Hj]; [unfold ts_le; lia|].
  by eapply Forall_forall in Hall.
Qed.

Lemma sorted_last_newest (l : list Job) (lastJob : Job) :
  StronglySorted ts_le l → last l = Some lastJob → ∀ j, j ∈ l → ts_le j lastJob.
Proof.
  intros Hs Hlast j Hj.
  apply last_Some in Hlast as [l' ->].
  apply StronglySorted_app in Hs as (Hcross & _ & _).
  apply elem_of_app in Hj as [Hj|Hj].
  - apply Hcross; [done|]. by apply list_elem_of_singleton.
  - apply list_elem_of_singleton in Hj as ->. unfold ts_le; lia.
Qed.

Lemma last_cons_default {A} (x : A) (l : list A) :
  last (x :: l) = Some (default x (last l)).
Proof.
  revert x. induction l as [|y l IH]; intros x; [done|].
  by rewrite last_cons_cons, IH.
Qed.

Lemma Math_max_spec (x : Z) (xs : list Z) :
  Math_max x xs ∈ x :: xs ∧ ∀ y, y ∈ x :: xs → y <= Math_max x xs.
Proof.
  unfold Math_max. induction xs as [|z xs [IHin IHub]]; simpl.
  - split; [by left|]. intros y Hy. apply list_elem_of_singleton in Hy. lia.
  - split.
    + destruct (Z.max_spec z (foldr Z.max x xs)) as [[_ ->]|[_ ->]].
      * apply elem_of_cons in IHin as [Heq|Hin]; [rewrite Heq; by left|]. by do 2 right.
      * right. by left.
    + intros y Hy. apply elem_of_cons in Hy as [->|Hy].
      * specialize (IHub x (list_elem_of_here _ _)). lia.
      * apply elem_of_cons in Hy as [->|Hy]; [lia|].
        specialize (IHub y (list_elem_of_further _ _ _ Hy)). lia.
Qed.

(** ** The monad *)

Lemma bind_unfold {A B} (m : M A) (k : A → M B) (s : State) :
  (m ≫= k) s = match m s with
               | (s1, Returned a) => k a s1
               | (s1, Thrown e) => (s1, Thrown e)
               | (s1, Pending) => (s1, Pending)
               end.
Proof. reflexivity. Qed.

Lemma mret_unfold {A} (a : A) (s : State) : (mret a : M A) s = (s, Returned a).
Proof. reflexivity. Qed.

Lemma gets_unfold {A} (f : State → A) (s : State) : gets f s = (s, Returned (f s)).
Proof. reflexivity. Qed.

Lemma bind_Returned {A B} (m : M A) (k : A → M B) (s s' : State) (b : B) :
  (m ≫= k) s = (s', Returned b) →
  ∃ a s1, m s = (s1, Returned a) ∧ k a s1 = (s', Returned b).
Proof.
  rewrite bind_unfold. destruct (m s) as [s1 [a|e|]]; intros H; try discriminate.
  by exists a, s1.
Qed.

Section Emits.
Context (P : Event → Prop).

Lemma emits_ret {A} (a : A) : emits P (mret a : M A).
Proof. intros s. exists []. by rewrite app_nil_r. Qed.

Lemma emits_throw {A} (e : Error) : emits P (throw e : M A).
Proof. intros s. exists []. by rewrite app_nil_r. Qed.

Lemma emits_gets {A} (f : State → A) : emits P (gets f).
Proof. intros s. exists []. by rewrite app_nil_r. Qed.

Lemma emits_modify (f : State → State) :
  (∀ s, trace (f s) = trace s) → emits P (modify f).
Proof. intros Hf s. exists []. simpl. by rewrite Hf, app_nil_r. Qed.

Lemma emits_attempt (env : Env) (c : Call) (f : State → State) :
  (∀ s, trace (f s) = trace s) → emits P (attempt env c f).
Proof.
  intros Hf s. exists []. unfold attempt.
  destruct (fails env c); simpl; by rewrite ?Hf, app_nil_r.
Qed.

Lemma emits_call (env : Env) (c : Call) (ev : Event) : P ev → emits P (call env c ev).
Proof.
  intros Hev s. exists [ev]. unfold call.
  destruct (fails env c); simpl; by repeat constructor.
Qed.

Lemma emits_bind {A B} (m : M A) (k : A → M B) :
  emits P m → (∀ a, emits P (k a)) → emits P (m ≫= k).
Proof.
  intros Hm Hk s. rewrite bind_unfold.
  destruct (Hm s) as (evs & Hevs & HP).
  destruct (m s) as [s1 [a|e|]]; simpl in *; eauto.
  destruct (Hk a s1) as (evs' & Hevs' & HP').
  exists (evs ++ evs'). rewrite Hevs', Hevs, app_assoc. split; [done|].
  by apply Forall_app.
Qed.

Lemma emits_try_finally {A} (body : M A) (fin : State → State) :
  (∀ s, trace (fin s) = trace s) → emits P body → emits P (try_finally body fin).
Proof.
  intros Hfin Hbody s. unfold try_finally.
  destruct (Hbody s) as (evs & Hevs & HP).
  destruct (body s) as [s1 [a|e|]]; simpl in *; rewrite ?Hfin; eauto.
Qed.

Lemma emits_promise_all (ms : list (M unit)) :
  Forall (emits P) ms → emits P (promise_all ms).
Proof.
  induction 1 as [|m ms Hm _ IH]; [apply emits_ret|].
  intros s. simpl.
  destruct (Hm s) as (evs & Hevs & HP).
  destruct (m s) as [s1 [[]|e|]]; simpl in *; eauto.
  - destruct (IH s1) as (evs' & Hevs' & HP').
    exists (evs ++ evs'). rewrite Hevs', Hevs, app_assoc. split; [done|].
    by apply Forall_app.
  - destruct (IH s1) as (evs' & Hevs' & HP').
    exists (evs ++ evs'). rewrite Hevs', Hevs, app_assoc. split; [done|].
    by apply Forall_app.
Qed.

End Emits.

(** ** The polling loop only records its own calls *)

Ltac trace_leaf HP :=
  eexists; split;
  [ unfold retrieve, sleep, advance, log; simpl; rewrite <- ?app_assoc; reflexivity
  | repeat (apply Forall_cons; split; [apply HP; exact I|]); try apply Forall_nil_2 ].

Ltac trace_step IH HP :=
  match goal with
  | |- ∃ evs, trace (fst (poll_loop ?o ?t ?r ?st ?rest ?status ?d ?s')) = _ ∧ _ =>
      let evs' := fresh "evs" in
      let Hevs' := fresh "Hevs" in
      let HP' := fresh "HP" in
      destruct (IH status d s') as (evs' & Hevs' & HP');
      rewrite Hevs'; eexists; split;
      [ unfold retrieve, sleep, advance, log; simpl; rewrite <- ?app_assoc; reflexivity
      | repeat (apply Forall_cons; split; [apply HP; exact I|]); exact HP' ]
  end.

Lemma emits_poll_loop (P : Event → Prop) (opts : Options) (thread run : string)
    (startTime : Z) (script : list PollStep) (status : string) (delay : Q) :
  (∀ e, is_poll_event e → P e) →
  emits P (poll_loop opts thread run startTime script status delay).
Proof.
  intros HP. revert status delay.
  induction script as [|p rest IH]; intros status delay s; simpl.
  - destruct (polling status); [destruct (_ >? _)|case_bool_decide];
      exists []; by rewrite app_nil_r.
  - destruct (polling status);
      [|case_bool_decide; exists []; by rewrite app_nil_r].
    destruct (_ >? _); [exists []; by rewrite app_nil_r|].
    destruct (retrieved p) as [e|checkRun]; [trace_leaf HP|].
    case_bool_decide; [|trace_step IH HP].
    destruct (handleRequiresAction opts) as [handler|]; [|trace_step IH HP].
    destruct (required_action checkRun) as [ra|]; [|trace_step IH HP].
    case_bool_decide; [|trace_step IH HP].
    destruct (handler _ _ _) as [e|toolOutputs]; [trace_leaf HP|].
    destruct (submitted p) as [e|]; [trace_leaf HP|trace_step IH HP].
Qed.

Lemma poll_loop_shared (opts : Options) (thread run : string) (startTime : Z)
    (script : list PollStep) (status : string) (delay : Q) :
  keeps_shared (poll_loop opts thread run startTime script status delay).
Proof.
  revert status delay.
  induction script as [|p rest IH]; intros status delay s; simpl.
  - by repeat case_match.
  - repeat case_match; try done; by rewrite IH.
Qed.

Lemma emits_await_run (P : Event → Prop) (opts : Options) (env : Env)
    (thread run : string) :
  (∀ e, is_poll_event e → P e) → emits P (await_run opts env thread run).
Proof.
  intros HP s. unfold await_run, waitForRunCompletion.
  destruct (emits_poll_loop P opts thread run (clock s) (polls env) "in_progress"
              initialDelay HP s) as (evs & Hevs & HPevs).
  destruct (poll_loop _ _ _ _ _ _ _ s) as [s1 o]. simpl in *. eauto.
Qed.

(** ** The batch processor records its calls in program order *)

Lemma emits_after_run (P : Event → Prop) (opts : Options) (env : Env)
    (thread : string) (jobs : list Job) (mark : Z) (run status : string) :
  (∀ e, is_promote e → P e) → emits P (after_run opts env thread jobs mark run status).
Proof.
  intros HP. unfold after_run.
  apply emits_bind; [|intros _].
  { apply emits_promise_all, Forall_forall. intros m Hm.
    apply list_elem_of_fmap in Hm as (job & -> & _).
    by apply emits_attempt. }
  apply emits_bind; [|intros _].
  { unfold removeJobsFromThreadIndex. case_match; [apply emits_ret|].
    by apply emits_attempt. }
  apply emits_bind; [by apply emits_attempt|intros _].
  apply emits_bind; [apply emits_gets|intros newerJobs].
  apply emits_bind; [|intros _; apply emits_ret].
  destruct newerJobs as [|oldest ?]; [apply emits_ret|].
  apply emits_call, HP. exact I.
Qed.

Lemma processMessages_try_calls (opts : Options) (env : Env) (thread : string)
    (jobs : list Job) (first : Job) (rest : list Job) (s : State) :
  Js.sort by_timestamp jobs = first :: rest →
  fails env CSetLastProcessed = None →
  fails env CCreateMessage = None →
  ∃ evs,
    trace (fst (processMessages_try opts env thread jobs s)) =
      trace s ++
      EvCreateMessage thread
        (Js.join Js.newline (map (λ job, message (job_data job)) (first :: rest))) ::
      EvCreateRun thread (assistantId opts)
        (run_instructions
           (Js.or_else (instructions (job_data (default first (last rest))))
              (defaultInstructions opts))) :: evs.
Proof.
  intros Hsort Hset Hmsg. unfold processMessages_try. rewrite Hsort.
  rewrite bind_unfold. unfold attempt at 1. rewrite Hset.
  rewrite bind_unfold. unfold createMessage, call at 1. rewrite Hmsg.
  rewrite bind_unfold. unfold createRun. rewrite bind_unfold. unfold call at 1.
  destruct (fails env CCreateRun) as [e|].
  { exists []. simpl. by rewrite <- app_assoc. }
  rewrite mret_unfold. cbv iota beta.
  match goal with
  | |- context [(await_run ?o ?e ?t ?r ≫= ?k) ?s0] =>
      destruct (emits_bind (λ _, True) (await_run o e t r) k
                  (emits_await_run _ o e t r (λ _ _, I))
                  (λ a, emits_after_run _ _ _ _ _ _ _ a (λ _ _, I)) s0)
        as (evs & Hevs & _)
  end.
  exists evs. simpl in *. rewrite Hevs. simpl. by rewrite <- !app_assoc.
Qed.

(** ** Lock acquisition in [processMessages] *)

Lemma processMessages_acquired (opts : Options) (env : Env) (thread : string)
    (jobs : list Job) (s : State) :
  strs (shared s) !! lock_key opts thread = None →
  processMessages opts env thread jobs s =
    try_finally (processMessages_try opts env thread jobs)
      (release_own_lock (lock_key opts thread) (Js.toString (clock s)))
      (Redis.set (lock_key opts thread) (Js.toString (clock s)) s).
Proof.
  intros Hfree. unfold processMessages.
  rewrite bind_unfold. cbn [gets]. rewrite bind_unfold.
  unfold Redis.set_nx. by rewrite Hfree.
Qed.

Lemma processMessages_contended (opts : Options) (env : Env) (thread : string)
    (jobs : list Job) (s : State) (holder : string) :
  strs (shared s) !! lock_key opts thread = Some holder →
  processMessages opts env thread jobs s = (s, Thrown (AlreadyProcessing thread)).
Proof.
  intros Hheld. unfold processMessages.
  rewrite bind_unfold. cbn [gets]. rewrite bind_unfold.
  unfold Redis.set_nx. by rewrite Hheld.
Qed.

Lemma release_own_lock_trace (lockKey lockValue : string) (s : State) :
  trace (release_own_lock lockKey lockValue s) = trace s.
Proof. unfold release_own_lock. by case_decide. Qed.

Lemma try_finally_trace {A} (body : M A) (fin : State → State) (s : State) :
  (∀ s1, trace (fin s1) = trace s1) →
  trace (fst (try_finally body fin s)) = trace (fst (body s)).
Proof.
  intros Hfin. unfold try_finally. destruct (body s) as [s1 [a|e|]]; simpl; by rewrite ?Hfin.
Qed.

(** C1.  For every non-empty batch, once the lock is acquired and the mark
    stored, [processMessages] sends one message whose body is the texts of
    the batch in ascending timestamp order (jobs of equal timestamp in the
    order given) joined by newlines, and then starts a run whose instructions
    are those of a job with the greatest timestamp of the batch, or the
    configured default when that job has none. *)
Theorem C1_combined_message_and_instructions (opts : Options) (env : Env)
    (thread : string) (jobs : list Job) (s : State) :
  jobs ≠ [] →
  strs (shared s) !! lock_key opts thread = None →
  fails env CSetLastProcessed = None →
  fails env CCreateMessage = None →
  ∃ (sorted : list Job) (newest : Job) (instr : string) (evs : list Event),
    sorted ≡ₚ jobs ∧
    StronglySorted ts_le sorted ∧
    (∀ t, filter (λ j, timestamp (job_data j) = t) sorted
          = filter (λ j, timestamp (job_data j) = t) jobs) ∧
    newest ∈ jobs ∧
    (∀ j, j ∈ jobs → timestamp (job_data j) <= timestamp (job_data newest)) ∧
    (instructions (job_data newest) = None → instr = defaultInstructions opts) ∧
    (∀ i, instructions (job_data newest) = Some i → i ≠ "" → instr = i) ∧
    trace (fst (processMessages opts env thread jobs s)) =
      trace s ++
      EvCreateMessage thread
        (String.concat Js.newline (map (λ job, message (job_data job)) sorted)) ::
      EvCreateRun thread (assistantId opts) (run_instructions instr) :: evs.
Proof.
  intros Hne Hfree Hset Hmsg.
  destruct (Js.sort by_timestamp jobs) as [|first rest] eqn:Hsort.
  { by apply sort_nil_inv in Hsort. }
  pose proof (sort_sorted jobs) as Hsorted. rewrite Hsort in Hsorted.
  pose proof (sort_perm by_timestamp jobs) as Hperm. rewrite Hsort in Hperm.
  pose proof (last_cons_default first rest) as Hlast.
  set (newest := default first (last rest)) in *.
  destruct (processMessages_try_calls opts env thread jobs first rest
              (Redis.set (lock_key opts thread) (Js.toString (clock s)) s)
              Hsort Hset Hmsg) as (evs & Hevs).
  exists (first :: rest), newest,
    (Js.or_else (instructions (job_data newest)) (defaultInstructions opts)), evs.
  split_and!; try done.
  - intros t. rewrite <- Hsort. apply sort_stable.
  - rewrite <- Hperm. by eapply last_Some_elem_of.
  - intros j Hj. rewrite <- Hperm in Hj.
    by apply (sorted_last_newest (first :: rest) newest).
  - by intros ->.
  - intros i -> Hi. simpl. unfold Js.truthy.
    destruct (String.eqb_spec i ""); [done|done].
  - rewrite processMessages_acquired by done.
    rewrite try_finally_trace by apply release_own_lock_trace.
    exact Hevs.
Qed.

Lemma C1_witness :
  ∃ (sorted : list Job) (newest : Job) (instr : string) (evs : list Event),
    sorted ≡ₚ [Sample.job_C; Sample.job_A; Sample.job_B] ∧
    StronglySorted ts_le sorted ∧
    (∀ t, filter (λ j, timestamp (job_data j) = t) sorted
          = filter (λ j, timestamp (job_data j) = t)
              [Sample.job_C; Sample.job_A; Sample.job_B]) ∧
    newest ∈ [Sample.job_C; Sample.job_A; Sample.job_B] ∧
    (∀ j, j ∈ [Sample.job_C; Sample.job_A; Sample.job_B] →
          timestamp (job_data j) <= timestamp (job_data newest)) ∧
    (instructions (job_data newest) = None → instr = defaultInstructions Sample.opts) ∧
    (∀ i, instructions (job_data newest) = Some i → i ≠ "" → instr = i) ∧
    trace (fst (processMessages Sample.opts Sample.calm "T1"
                  [Sample.job_C; Sample.job_A; Sample.job_B] Sample.after_ABC)) =
      trace Sample.after_ABC ++
      EvCreateMessage "T1"
        (String.concat Js.newline (map (λ job, message (job_data job)) sorted)) ::
      EvCreateRun "T1" (assistantId Sample.opts) (run_instructions instr) :: evs.
Proof.
  apply (C1_combined_message_and_instructions Sample.opts Sample.calm "T1"
           [Sample.job_C; Sample.job_A; Sample.job_B] Sample.after_ABC).
  - discriminate.
  - reflexivity.
  - reflexivity.
  - reflexivity.
Defined.

(** The job read by [jobs[jobs.length - 1]] is the most recently submitted
    one whenever a single job has the greatest timestamp. *)
Lemma last_sorted_most_recent (jobs : list Job) (newest : Job) :
  newest ∈ jobs →
  (∀ j, j ∈ jobs → j ≠ newest → timestamp (job_data j) < timestamp (job_data newest)) →
  last (Js.sort by_timestamp jobs) = Some newest.
Proof.
  intros Hin Hmax.
  destruct (last (Js.sort by_timestamp jobs)) as [l|] eqn:Hlast.
  - pose proof (sorted_last_newest _ _ (sort_sorted jobs) Hlast newest) as Hle.
    rewrite sort_elem_of in Hle. specialize (Hle Hin).
    pose proof (last_Some_elem_of _ _ Hlast) as Hl. rewrite sort_elem_of in Hl.
    destruct (decide (l = newest)) as [->|Hneq]; [done|].
    specialize (Hmax l Hl Hneq). unfold ts_le in Hle. lia.
  - apply last_None in Hlast. apply sort_nil_inv in Hlast. subst.
    by apply elem_of_nil in Hin.
Qed.

(** C10.  When the most recently submitted job of the batch carries the
    empty string as instructions (or none at all), the run is started with
    the configured default instructions. *)
Theorem C10_falsy_instructions_use_default (opts : Options) (env : Env)
    (thread : string) (jobs : list Job) (newest : Job) (s : State) :
  newest ∈ jobs →
  (∀ j, j ∈ jobs → j ≠ newest → timestamp (job_data j) < timestamp (job_data newest)) →
  instructions (job_data newest) = Some "" ∨ instructions (job_data newest) = None →
  strs (shared s) !! lock_key opts thread = None →
  fails env CSetLastProcessed = None →
  fails env CCreateMessage = None →
  ∃ (body : string) (evs : list Event),
    trace (fst (processMessages opts env thread jobs s)) =
      trace s ++
      EvCreateMessage thread body ::
      EvCreateRun thread (assistantId opts)
        (run_instructions (defaultInstructions opts)) :: evs.
Proof.
  intros Hin Hmax Hfalsy Hfree Hset Hmsg.
  pose proof (last_sorted_most_recent jobs newest Hin Hmax) as Hlast.
  destruct (Js.sort by_timestamp jobs) as [|first rest] eqn:Hsort; [done|].
  rewrite last_cons_default in Hlast. injection Hlast as Hlast.
  destruct (processMessages_try_calls opts env thread jobs first rest
              (Redis.set (lock_key opts thread) (Js.toString (clock s)) s)
              Hsort Hset Hmsg) as (evs & Hevs).
  rewrite Hlast in Hevs.
  eexists _, evs.
  rewrite processMessages_acquired by done.
  rewrite try_finally_trace by apply release_own_lock_trace.
  rewrite Hevs. by destruct Hfalsy as [-> | ->].
Qed.

Lemma C10_witness :
  ∃ (body : string) (evs : list Event),
    trace (fst (processMessages Sample.opts Sample.calm "T1"
                  [Sample.job_A; Sample.job_B; Sample.job_C] Sample.after_ABC)) =
      trace Sample.after_ABC ++
      EvCreateMessage "T1" body ::
      EvCreateRun "T1" (assistantId Sample.opts)
        (run_instructions (defaultInstructions Sample.opts)) :: evs.
Proof.
  apply (C10_falsy_instructions_use_default Sample.opts Sample.calm "T1"
           [Sample.job_A; Sample.job_B; Sample.job_C] Sample.job_C Sample.after_ABC).
  - set_solver.
  - intros j Hj Hne.
    repeat (apply elem_of_cons in Hj as [->|Hj]); try done;
      [vm_compute; reflexivity..|by apply elem_of_nil in Hj].
  - left. reflexivity.
  - reflexivity.
  - reflexivity.
  - reflexivity.
Defined.

(** ** Frame lemmas: what an action leaves untouched *)

Section Preserves.
Context {X : Type} (f : State → X).

Lemma preserves_ret {A} (a : A) : preserves f (mret a : M A).
Proof. done. Qed.

Lemma preserves_throw {A} (e : Error) : preserves f (throw e : M A).
Proof. done. Qed.

Lemma preserves_gets {A} (g : State → A) : preserves f (gets g).
Proof. done. Qed.

Lemma preserves_attempt (env : Env) (c : Call) (g : State → State) :
  (∀ s, f (g s) = f s) → preserves f (attempt env c g).
Proof. intros Hg s. unfold attempt. destruct (fails env c); simpl; by rewrite ?Hg. Qed.

Lemma preserves_call (env : Env) (c : Call) (ev : Event) :
  (∀ s, f (log ev s) = f s) → preserves f (call env c ev).
Proof. intros Hg s. unfold call. destruct (fails env c); simpl; by rewrite ?Hg. Qed.

Lemma preserves_bind {A B} (m : M A) (k : A → M B) :
  preserves f m → (∀ a, preserves f (k a)) → preserves f (m ≫= k).
Proof.
  intros Hm Hk s. rewrite bind_unfold. specialize (Hm s).
  destruct (m s) as [s1 [a|e|]]; simpl in *; try done.
  by rewrite Hk.
Qed.

Lemma preserves_promise_all (ms : list (M unit)) :
  Forall (preserves f) ms → preserves f (promise_all ms).
Proof.
  induction 1 as [|m ms Hm _ IH]; [done|].
  intros s. simpl. specialize (Hm s).
  destruct (m s) as [s1 [[]|e|]]; simpl in *; try done; by rewrite IH.
Qed.

End Preserves.

Lemma preserves_of_shared {A X} (g : Shared → X) (m : M A) :
  keeps_shared m → preserves (λ s, g (shared s)) m.
Proof. intros Hm s. by rewrite Hm. Qed.

(** ** The keys of a thread never collide *)

Lemma append_inj_prefix (p a b : string) : p +:+ a = p +:+ b → a = b.
Proof. induction p as [|c p IH]; simpl; [done|]. intros [= H]. by apply IH. Qed.

Lemma lock_key_not_last_processed (opts : Options) (t t' : string) :
  lock_key opts t ≠ last_processed_key opts t'.
Proof.
  unfold lock_key, last_processed_key. intros H.
  apply append_inj_prefix in H. discriminate H.
Qed.

(** ** The lock key inside the [try] block *)

Lemma after_run_stored (key : string) (opts : Options) (env : Env) (thread : string)
    (jobs : list Job) (mark : Z) (run status : string) :
  preserves (stored key) (after_run opts env thread jobs mark run status).
Proof.
  unfold after_run.
  apply preserves_bind; [|intros _].
  { apply preserves_promise_all, Forall_forall. intros m Hm.
    apply list_elem_of_fmap in Hm as (job & -> & _).
    by apply preserves_attempt. }
  apply preserves_bind; [|intros _].
  { unfold removeJobsFromThreadIndex. case_match; [done|]. by apply preserves_attempt. }
  apply preserves_bind; [by apply preserves_attempt|intros _].
  apply preserves_bind; [done|intros newerJobs].
  apply preserves_bind; [|done].
  destruct newerJobs; [done|]. by apply preserves_call.
Qed.

Lemma await_run_stored (key : string) (opts : Options) (env : Env) (thread run : string) :
  (∀ sh, strs (during_run env sh) !! key = strs sh !! key) →
  preserves (stored key) (await_run opts env thread run).
Proof.
  intros Hquiet s. unfold await_run, waitForRunCompletion.
  pose proof (poll_loop_shared opts thread run (clock s) (polls env) "in_progress"
                initialDelay s) as Hsh.
  destruct (poll_loop _ _ _ _ _ _ _ s) as [s1 o]. simpl in *.
  unfold stored. simpl. by rewrite Hquiet, Hsh.
Qed.

Lemma processMessages_try_stored (opts : Options) (env : Env) (thread : string)
    (jobs : list Job) :
  (∀ sh, strs (during_run env sh) !! lock_key opts thread
         = strs sh !! lock_key opts thread) →
  preserves (stored (lock_key opts thread)) (processMessages_try opts env thread jobs).
Proof.
  intros Hquiet. unfold processMessages_try.
  destruct (Js.sort by_timestamp jobs) as [|first rest]; [done|].
  apply preserves_bind; [|intros _].
  { apply preserves_attempt. intros s. unfold stored. simpl.
    apply lookup_insert_ne. intros H. symmetry in H.
    by apply lock_key_not_last_processed in H. }
  apply preserves_bind; [by apply preserves_call|intros _].
  apply preserves_bind; [|intros run].
  { apply preserves_bind; [by apply preserves_call|done]. }
  apply preserves_bind; [by apply await_run_stored|intros status].
  apply after_run_stored.
Qed.

(** ** C4: the lock on the exit paths of [processMessages] *)

Lemma releaseLock_state (lockKey lockValue : string) (s : State) :
  fst (releaseLock lockKey lockValue s) = release_own_lock lockKey lockValue s.
Proof.
  unfold releaseLock, release_own_lock. rewrite bind_unfold. cbn [gets].
  by case_decide.
Qed.

Lemma releaseLock_result (lockKey lockValue : string) (s : State) :
  snd (releaseLock lockKey lockValue s)
  = Returned (bool_decide (stored lockKey s = Some lockValue)).
Proof.
  unfold releaseLock. rewrite bind_unfold. cbn [gets].
  unfold Redis.get, stored. case_decide; case_bool_decide; done.
Qed.

(** C4.  When another owner holds the lock, [processMessages] throws and
    touches nothing.  Once it holds the lock itself, whichever way the [try]
    block ends (a result, a rejected external call, any other error) the
    [finally] block runs the compare-and-delete of [releaseLock], which
    deletes the key and answers [true] exactly when the key stores the given
    token: the lock key is deleted when it still stores the token of this
    cycle, and nothing at all changes when it stores another token or is
    gone.  The token of this cycle is never left behind, and a lock nobody
    else touched is free again. *)
Theorem C4_lock_released_on_every_exit (opts : Options) (env : Env)
    (thread : string) (jobs : list Job) (s : State) :
  let lockKey := lock_key opts thread in
  let token := Js.toString (clock s) in
  let body := processMessages_try opts env thread jobs (Redis.set lockKey token s) in
  let final := processMessages opts env thread jobs s in
  (∀ key value st,
     releaseLock key value st
     = (if decide (stored key st = Some value) then Redis.del key st else st,
        Returned (bool_decide (stored key st = Some value)))) ∧
  (∀ holder, stored lockKey s = Some holder →
     final = (s, Thrown (AlreadyProcessing thread))) ∧
  (stored lockKey s = None →
     snd final = snd body ∧
     (snd body ≠ Pending →
        fst final = fst (releaseLock lockKey token (fst body)) ∧
        (stored lockKey (fst body) = Some token →
           fst final = Redis.del lockKey (fst body) ∧ stored lockKey (fst final) = None) ∧
        (stored lockKey (fst body) ≠ Some token → fst final = fst body) ∧
        stored lockKey (fst final) ≠ Some token ∧
        ((∀ sh, strs (during_run env sh) !! lockKey = strs sh !! lockKey) →
           stored lockKey (fst final) = None))).
Proof.
  intros lockKey token body final.
  split.
  { intros key value st. rewrite (surjective_pairing (releaseLock key value st)).
    rewrite releaseLock_state, releaseLock_result. done. }
  split.
  { intros holder Hheld. by eapply processMessages_contended. }
  intros Hfree.
  assert (final = try_finally (processMessages_try opts env thread jobs)
                    (release_own_lock lockKey token) (Redis.set lockKey token s))
    as Hfinal by (by apply processMessages_acquired).
  unfold try_finally in Hfinal. fold body in Hfinal.
  assert (∀ s1, stored lockKey s1 = Some token →
            release_own_lock lockKey token s1 = Redis.del lockKey s1) as Hdel.
  { intros s1 H. unfold release_own_lock, Redis.get. fold (stored lockKey s1).
    by rewrite decide_True. }
  assert (∀ s1, stored lockKey s1 ≠ Some token →
            release_own_lock lockKey token s1 = s1) as Hkeep.
  { intros s1 H. unfold release_own_lock, Redis.get. fold (stored lockKey s1).
    by rewrite decide_False. }
  assert (∀ s1, stored lockKey (Redis.del lockKey s1) = None) as Hgone.
  { intros s1. unfold stored. simpl. apply lookup_delete_eq. }
  assert (snd body ≠ Pending → fst final = release_own_lock lockKey token (fst body))
    as Hexit.
  { rewrite Hfinal. destruct body as [s1 [r|e|]]; simpl; done. }
  split.
  { rewrite Hfinal. by destruct body as [s1 [r|e|]]. }
  intros Hsettled. specialize (Hexit Hsettled).
  split_and!.
  - by rewrite releaseLock_state.
  - intros Hown. rewrite Hexit, Hdel by done. by split.
  - intros Hother. by rewrite Hexit, Hkeep.
  - rewrite Hexit. destruct (decide (stored lockKey (fst body) = Some token)) as [Hown|Hother].
    + by rewrite Hdel, Hgone.
    + by rewrite Hkeep.
  - intros Hquiet. rewrite Hexit, Hdel; [apply Hgone|].
    unfold body. rewrite (processMessages_try_stored opts env thread jobs Hquiet).
    unfold stored. simpl. apply lookup_insert_eq.
Qed.

Lemma C4_witness :
  stored (lock_key Sample.opts "T1") Sample.after_ABC = None ∧
  stored (lock_key Sample.opts "T1")
    (fst (processMessages Sample.opts Sample.calm "T1"
            [Sample.job_A; Sample.job_B; Sample.job_C] Sample.after_ABC)) = None.
Proof.
  split; [reflexivity|].
  apply (C4_lock_released_on_every_exit Sample.opts Sample.calm "T1"
           [Sample.job_A; Sample.job_B; Sample.job_C] Sample.after_ABC);
    [reflexivity|vm_compute; discriminate|reflexivity].
Defined.

(** The three exits of a cycle that holds the lock: a result, a rejected
    external call, and a lock that changed hands meanwhile. *)
Example lock_after_each_exit :
  let batch := [Sample.job_A; Sample.job_B; Sample.job_C] in
  let key := lock_key Sample.opts "T1" in
  let done_ := processMessages Sample.opts Sample.calm "T1" batch Sample.after_ABC in
  let failed := processMessages Sample.opts Sample.rejecting "T1" batch Sample.after_ABC in
  let taken := processMessages Sample.opts Sample.takeover "T1" batch Sample.after_ABC in
  (returned (snd done_) = true ∧ stored key (fst done_) = None) ∧
  (snd failed = Thrown (External "503") ∧ stored key (fst failed) = None) ∧
  (returned (snd taken) = true ∧ stored key (fst taken) = Some "another owner").
Proof. vm_compute. done. Qed.

(** ** Reading the Thread Job Index *)

Lemma fetch_batches_concat (jobIds : list string) (i : nat) :
  concat (fetch_batches jobIds i) = drop i jobIds.
Proof.
  funelim (fetch_batches jobIds i).
  - simpl. rewrite H. unfold Js.slice, batchSize.
    replace (i + 20 - i)%nat with 20%nat by lia.
    rewrite <- drop_drop. apply take_drop.
  - simpl. symmetry. apply drop_ge. lia.
Qed.

Lemma fetch_batches_bounded (jobIds : list string) (i : nat) :
  Forall (λ batchIds, (length batchIds <= batchSize)%nat) (fetch_batches jobIds i).
Proof.
  funelim (fetch_batches jobIds i); [|constructor].
  constructor; [|done].
  unfold Js.slice. rewrite length_take. lia.
Qed.

Lemma omap_concat {A B} (f : A → option B) (ls : list (list A)) :
  omap f (concat ls) = concat (map (omap f) ls).
Proof.
  induction ls as [|l ls IH]; simpl; [done|]. by rewrite omap_app, IH.
Qed.

Lemma getJobsByThreadId_spec (opts : Options) (thread : string) (s : State) :
  getJobsByThreadId opts thread s
  = omap (getJob s) (Redis.sMembers (threadJobs_key opts thread) s).
Proof.
  unfold getJobsByThreadId.
  destruct (Redis.sMembers _ s) as [|id ids] eqn:Hids; [done|].
  change (fetch_batch s) with (omap (M:=list) (getJob s)).
  rewrite <- omap_concat. by rewrite fetch_batches_concat.
Qed.

Lemma getJobsByThreadId_ext (opts : Options) (thread : string) (s s' : State) :
  queue (shared s) = queue (shared s') →
  sets (shared s) = sets (shared s') →
  getJobsByThreadId opts thread s = getJobsByThreadId opts thread s'.
Proof.
  intros Hq Hs. rewrite !getJobsByThreadId_spec.
  unfold Redis.sMembers, getJob. by rewrite Hq, Hs.
Qed.

Lemma elem_of_getJobsByThreadId (opts : Options) (thread : string) (s : State) (j : Job) :
  j ∈ getJobsByThreadId opts thread s ↔
  job_id j ∈ Redis.sMembers (threadJobs_key opts thread) s ∧
  queue (shared s) !! job_id j = Some (job_data j).
Proof.
  rewrite getJobsByThreadId_spec, list_elem_of_omap. unfold getJob. split.
  - intros (id & Hid & Hj). destruct (queue (shared s) !! id) as [d|] eqn:Hd; [|done].
    injection Hj as <-. by split.
  - intros [Hid Hj]. exists (job_id j). split; [done|]. rewrite Hj. by destruct j.
Qed.

(** ** Cleaning up after a completed run *)

Lemma promise_all_remove (env : Env) (jobs : list Job) (s s' : State)
    (o : Outcome unit) :
  promise_all (map (job_remove env) jobs) s = (s', o) →
  sets (shared s') = sets (shared s) ∧
  strs (shared s') = strs (shared s) ∧
  trace s' = trace s ∧
  (∀ k, queue (shared s) !! k = None → queue (shared s') !! k = None) ∧
  (returned o = true → ∀ j, j ∈ jobs → queue (shared s') !! job_id j = None).
Proof.
  revert s s' o. induction jobs as [|job jobs IH]; intros s s' o; simpl.
  - intros [= <- <-]. split_and!; try done. intros _ j Hj. by apply elem_of_nil in Hj.
  - unfold job_remove at 1, attempt.
    destruct (fails env (CRemoveJob (job_id job))) as [e|].
    + destruct (promise_all (map (job_remove env) jobs) s) as [s2 o2] eqn:Hrest.
      simpl. intros [= <- <-].
      destruct (IH _ _ _ Hrest) as (? & ? & ? & ? & _). by split_and!.
    + intros Hrest. destruct (IH _ _ _ Hrest) as (Hsets & Hstrs & Htr & Hmono & Hall).
      split_and!; try done.
      * intros k Hk. apply Hmono. simpl.
        destruct (decide (job_id job = k)) as [->|Hne];
          [apply lookup_delete_eq|by rewrite lookup_delete_ne].
      * intros Ho j Hj. apply elem_of_cons in Hj as [->|Hj]; [|by apply Hall].
        apply Hmono. simpl. apply lookup_delete_eq.
Qed.

Lemma filter_not_in_nil (l : list string) : filter (λ x, x ∉ []) l = l.
Proof.
  induction l as [|x l IH]; [done|].
  rewrite filter_cons_True by apply not_elem_of_nil. by rewrite IH.
Qed.

Lemma removeJobsFromThreadIndex_spec (opts : Options) (env : Env) (thread : string)
    (jobIds : list string) (s s' : State) :
  removeJobsFromThreadIndex opts env thread jobIds s = (s', Returned tt) →
  queue (shared s') = queue (shared s) ∧
  strs (shared s') = strs (shared s) ∧
  trace s' = trace s ∧
  Redis.sMembers (threadJobs_key opts thread) s'
  = filter (λ x, x ∉ jobIds) (Redis.sMembers (threadJobs_key opts thread) s).
Proof.
  unfold removeJobsFromThreadIndex. destruct jobIds as [|id ids].
  { intros [= <-]. split_and!; try done. by rewrite filter_not_in_nil. }
  unfold attempt. destruct (fails env CSRem); [done|]. intros [= <-].
  split_and!; try done.
  unfold Redis.sMembers, Redis.sRem. simpl.
  destruct (sets (shared s) !! threadJobs_key opts thread) as [l|] eqn:Hl; simpl.
  - destruct (filter _ l) as [|x l'] eqn:Hf.
    + by rewrite lookup_delete_eq.
    + by rewrite lookup_insert_eq.
  - by rewrite Hl.
Qed.

Lemma getNewerJobsByThreadId_elem_of (opts : Options) (thread : string) (mark : Z)
    (s : State) (j : Job) :
  j ∈ getNewerJobsByThreadId opts thread mark s ↔
  j ∈ getJobsByThreadId opts thread s ∧ timestamp (job_data j) > mark.
Proof.
  unfold getNewerJobsByThreadId. by rewrite sort_elem_of, list_elem_of_filter, (comm and).
Qed.

Lemma after_run_spec (opts : Options) (env : Env) (thread : string)
    (jobs : list Job) (mark : Z) (run status : string) (s s' : State)
    (o : Outcome ProcessingResult) :
  after_run opts env thread jobs mark run status s = (s', o) →
  returned o = true →
  strs (shared s') = strs (shared s) ∧
  (∀ j, j ∈ jobs → queue (shared s') !! job_id j = None) ∧
  (∀ j, j ∈ jobs → job_id j ≠ "" →
        job_id j ∉ Redis.sMembers (threadJobs_key opts thread) s') ∧
  trace s' = trace s ++
    match getNewerJobsByThreadId opts thread mark s' with
    | oldest :: _ => [EvPromote (job_id oldest)]
    | [] => []
    end.
Proof.
  unfold after_run. rewrite bind_unfold.
  destruct (promise_all _ s) as [s1 o1] eqn:Hremove.
  destruct (promise_all_remove _ _ _ _ _ Hremove) as (Hsets1 & Hstrs1 & Htr1 & _ & Hgone).
  destruct o1 as [[]|e|]; [|by intros [= <- <-]..].
  specialize (Hgone eq_refl).
  rewrite bind_unfold.
  destruct (removeJobsFromThreadIndex _ _ _ _ s1) as [s2 o2] eqn:Hsrem.
  destruct o2 as [[]|e|]; [|by intros [= <- <-]..].
  destruct (removeJobsFromThreadIndex_spec _ _ _ _ _ _ Hsrem)
    as (Hq2 & Hstrs2 & Htr2 & Hidx).
  rewrite bind_unfold. unfold attempt at 1.
  destruct (fails env CListJobs); [by intros [= <- <-]|].
  rewrite bind_unfold. cbn [gets]. rewrite bind_unfold.
  assert (∀ s3, shared s3 = shared s2 →
            strs (shared s3) = strs (shared s) ∧
            (∀ j, j ∈ jobs → queue (shared s3) !! job_id j = None) ∧
            (∀ j, j ∈ jobs → job_id j ≠ "" →
                  job_id j ∉ Redis.sMembers (threadJobs_key opts thread) s3) ∧
            getNewerJobsByThreadId opts thread mark s3
            = getNewerJobsByThreadId opts thread mark s2) as Hshared.
  { intros s3 Hs3. split_and!.
    - by rewrite Hs3, Hstrs2, Hstrs1.
    - intros j Hj. rewrite Hs3, Hq2. by apply Hgone.
    - intros j Hj Hid. unfold Redis.sMembers. rewrite Hs3.
      fold (Redis.sMembers (threadJobs_key opts thread) s2). rewrite Hidx.
      rewrite list_elem_of_filter. intros [Hnot _]. apply Hnot.
      apply list_elem_of_filter. split.
      + unfold Js.truthy. by destruct (String.eqb_spec (job_id j) "").
      + by apply list_elem_of_fmap_2.
    - unfold getNewerJobsByThreadId.
      by rewrite (getJobsByThreadId_ext opts thread s3 s2) by (by rewrite Hs3). }
  destruct (getNewerJobsByThreadId opts thread mark s2) as [|oldest more] eqn:Hnewer.
  - rewrite mret_unfold. cbv iota beta. rewrite mret_unfold. intros [= <- <-] _.
    destruct (Hshared s2 eq_refl) as (? & ? & ? & Hsame).
    split_and!; try done. by rewrite Hnewer, app_nil_r, Htr2, Htr1.
  - unfold job_promote, call.
    destruct (fails env CPromote); [by intros [= <- <-]|].
    rewrite mret_unfold. intros [= <- <-] _.
    destruct (Hshared (log (EvPromote (job_id oldest)) s2) eq_refl)
      as (? & ? & ? & Hsame).
    split_and!; try done. rewrite Hsame. simpl. by rewrite Htr2, Htr1.
Qed.

Lemma emits_run {A} (P : Event → Prop) (m : M A) (s s1 : State) (o : Outcome A) :
  emits P m → m s = (s1, o) → ∃ evs, trace s1 = trace s ++ evs ∧ Forall P evs.
Proof. intros Hm Hrun. specialize (Hm s). by rewrite Hrun in Hm. Qed.

Lemma not_promote_poll (e : Event) : is_poll_event e → ¬ is_promote e.
Proof. destruct e; simpl; tauto. Qed.

(** A [try] block that returns went through the whole of [after_run], and
    promoted nothing before reaching it. *)
Lemma processMessages_try_returned (opts : Options) (env : Env) (thread : string)
    (jobs : list Job) (s s' : State) (r : ProcessingResult) :
  processMessages_try opts env thread jobs s = (s', Returned r) →
  ∃ first rest s0 run status evs,
    Js.sort by_timestamp jobs = first :: rest ∧
    after_run opts env thread (first :: rest)
      (Math_max (timestamp (job_data first))
         (map (λ job, timestamp (job_data job)) rest)) run status s0
    = (s', Returned r) ∧
    trace s0 = trace s ++ evs ∧
    Forall (λ e, ¬ is_promote e) evs.
Proof.
  unfold processMessages_try.
  destruct (Js.sort by_timestamp jobs) as [|first rest]; [done|].
  intros H.
  apply bind_Returned in H as ([] & s1 & H1 & H).
  apply bind_Returned in H as ([] & s2 & H2 & H).
  apply bind_Returned in H as (run & s3 & H3 & H).
  apply bind_Returned in H as (status & s4 & H4 & H).
  eapply (emits_run (λ e, ¬ is_promote e)) in H1 as (evs1 & Htr1 & HP1);
    [|by apply emits_attempt].
  eapply (emits_run (λ e, ¬ is_promote e)) in H2 as (evs2 & Htr2 & HP2);
    [|apply emits_call; by intros []].
  eapply (emits_run (λ e, ¬ is_promote e)) in H3 as (evs3 & Htr3 & HP3);
    [|apply emits_bind; [apply emits_call; by intros []|intros; apply emits_ret]].
  eapply (emits_run (λ e, ¬ is_promote e)) in H4 as (evs4 & Htr4 & HP4);
    [|apply emits_await_run, not_promote_poll].
  exists first, rest, s4, run, status, (evs1 ++ evs2 ++ evs3 ++ evs4).
  split_and!; try done.
  - by rewrite Htr4, Htr3, Htr2, Htr1, <- !app_assoc.
  - by rewrite !Forall_app.
Qed.

Lemma release_own_lock_stores (lockKey lockValue : string) (s : State) :
  queue (shared (release_own_lock lockKey lockValue s)) = queue (shared s) ∧
  sets (shared (release_own_lock lockKey lockValue s)) = sets (shared s).
Proof. unfold release_own_lock. by case_decide. Qed.

(** What a cycle that returned a result has done. *)
Lemma processMessages_returned_spec (opts : Options) (env : Env) (thread : string)
    (jobs : list Job) (s : State) :
  returned (snd (processMessages opts env thread jobs s)) = true →
  Forall (λ j, job_id j ≠ "") jobs →
  let s' := fst (processMessages opts env thread jobs s) in
  ∃ (mark : Z) (evs : list Event),
    (∃ j, j ∈ jobs ∧ timestamp (job_data j) = mark) ∧
    (∀ j, j ∈ jobs → timestamp (job_data j) <= mark) ∧
    (∀ j, j ∈ jobs → queue (shared s') !! job_id j = None) ∧
    (∀ j, j ∈ jobs → job_id j ∉ Redis.sMembers (threadJobs_key opts thread) s') ∧
    (∀ j, j ∈ getNewerJobsByThreadId opts thread mark s' ↔
          j ∈ getJobsByThreadId opts thread s' ∧ timestamp (job_data j) > mark) ∧
    Forall (λ e, ¬ is_promote e) evs ∧
    match getNewerJobsByThreadId opts thread mark s' with
    | [] => trace s' = trace s ++ evs
    | oldest :: _ =>
        (∀ j, j ∈ getNewerJobsByThreadId opts thread mark s' →
              timestamp (job_data oldest) <= timestamp (job_data j)) ∧
        trace s' = trace s ++ evs ++ [EvPromote (job_id oldest)]
    end.
Proof.
  intros Hret Hids s'.
  destruct (strs (shared s) !! lock_key opts thread) as [holder|] eqn:Hlock.
  { by rewrite (processMessages_contended _ _ _ _ _ _ Hlock) in Hret. }
  subst s'. rewrite processMessages_acquired in * by done.
  unfold try_finally in *.
  destruct (processMessages_try _ _ _ _ _) as [s1 [r|e|]] eqn:Htry; try done.
  simpl in Hret |- *.
  apply processMessages_try_returned in Htry
    as (first & rest & s0 & run & status & evs & Hsort & Hafter & Htr0 & HP).
  apply after_run_spec in Hafter as (_ & Hgone & Hidx & Htr1); [|done].
  pose proof (sort_perm by_timestamp jobs) as Hperm. rewrite Hsort in Hperm.
  set (lockKey := lock_key opts thread) in *.
  set (token := Js.toString (clock s)) in *.
  destruct (release_own_lock_stores lockKey token s1) as [Hq Hs].
  set (s' := release_own_lock lockKey token s1) in *.
  set (mark := Math_max _ _) in *.
  assert (∀ m, getNewerJobsByThreadId opts thread m s'
               = getNewerJobsByThreadId opts thread m s1) as Hnewer.
  { intros m. unfold getNewerJobsByThreadId.
    by rewrite (getJobsByThreadId_ext opts thread s' s1). }
  exists mark, evs.
  destruct (Math_max_spec (timestamp (job_data first))
              (map (λ job, timestamp (job_data job)) rest)) as [Hin Hub].
  fold mark in Hin, Hub.
  change (timestamp (job_data first) :: map (λ job, timestamp (job_data job)) rest)
    with (map (λ job, timestamp (job_data job)) (first :: rest)) in Hin, Hub.
  split_and!.
  - apply list_elem_of_fmap in Hin as (j & Hj & Hjin). exists j. by rewrite <- Hperm.
  - intros j Hj. apply Hub. apply list_elem_of_fmap. exists j.
    by rewrite Hperm.
  - intros j Hj. rewrite Hq. apply Hgone. by rewrite Hperm.
  - intros j Hj. unfold Redis.sMembers. rewrite Hs.
    apply Hidx; [by rewrite Hperm|]. by eapply Forall_forall in Hids.
  - intros j. apply getNewerJobsByThreadId_elem_of.
  - done.
  - replace (trace s') with (trace s1) by (symmetry; apply release_own_lock_trace).
    rewrite Hnewer, Htr1, Htr0.
    destruct (getNewerJobsByThreadId opts thread mark s1) as [|oldest more] eqn:Hn.
    + by rewrite app_nil_r.
    + split; [|by rewrite <- app_assoc].
      intros j Hj.
      apply (sorted_head_oldest oldest more); [|done].
      rewrite <- Hn. apply sort_sorted.
Qed.

(** The outcome of the loop depends on the clock only. *)
Lemma poll_loop_outcome_clock (opts : Options) (thread run : string) (startTime : Z)
    (script : list PollStep) (status : string) (delay : Q) (s s' : State) :
  clock s = clock s' →
  snd (poll_loop opts thread run startTime script status delay s)
  = snd (poll_loop opts thread run startTime script status delay s').
Proof.
  revert status delay s s'.
  induction script as [|p rest IH]; intros status delay s s' Hclock; simpl;
    rewrite Hclock.
  - by repeat case_match.
  - repeat case_match; try done; apply IH; simpl; by rewrite Hclock.
Qed.

Lemma promise_all_remove_returns (env : Env) (jobs : list Job) (s : State) :
  (∀ c, fails env c = None) →
  snd (promise_all (map (job_remove env) jobs) s) = Returned tt.
Proof.
  intros Hok. revert s. induction jobs as [|job jobs IH]; intros s; simpl; [done|].
  unfold job_remove at 1, attempt. rewrite Hok. apply IH.
Qed.

(** A cycle returns a result when it gets the lock, no collaborator rejects
    a call, and the run is reported completed. *)
Lemma processMessages_returns (opts : Options) (env : Env) (thread : string)
    (jobs : list Job) (s : State) :
  jobs ≠ [] →
  strs (shared s) !! lock_key opts thread = None →
  (∀ c, fails env c = None) →
  returned (snd (waitForRunCompletion opts env thread (created_run env) s)) = true →
  returned (snd (processMessages opts env thread jobs s)) = true.
Proof.
  intros Hne Hfree Hok Hrun.
  rewrite processMessages_acquired by done. unfold try_finally.
  destruct (processMessages_try _ _ _ _ _) as [s1 o] eqn:Htry.
  assert (returned o = true) as Ho; [|by destruct o].
  replace o with (snd (processMessages_try opts env thread jobs
                         (Redis.set (lock_key opts thread) (Js.toString (clock s)) s)))
    by (by rewrite Htry).
  clear Htry. unfold processMessages_try.
  destruct (Js.sort by_timestamp jobs) as [|first rest] eqn:Hsort.
  { by apply sort_nil_inv in Hsort. }
  rewrite bind_unfold. unfold attempt at 1. rewrite Hok.
  rewrite bind_unfold. unfold createMessage, call at 1. rewrite Hok.
  rewrite bind_unfold. unfold createRun. rewrite bind_unfold. unfold call at 1.
  rewrite Hok, mret_unfold. cbv iota beta.
  rewrite bind_unfold. unfold await_run at 1, waitForRunCompletion.
  match goal with
  | |- context [poll_loop ?o ?t ?r ?st ?sc ?status ?d ?s0] =>
      pose proof (poll_loop_outcome_clock o t r st sc status d s0 s eq_refl) as Hsame;
      destruct (poll_loop o t r st sc status d s0) as [s4 o4]
  end.
  unfold waitForRunCompletion in Hrun. simpl in Hsame. rewrite <- Hsame in Hrun.
  destruct o4 as [status| |]; try done.
  unfold after_run. rewrite bind_unfold.
  match goal with
  | |- context [promise_all ?ms ?s0] =>
      pose proof (promise_all_remove_returns env (first :: rest) s0 Hok) as Hrm;
      destruct (promise_all ms s0) as [s5 o5]
  end.
  simpl in Hrm. subst o5.
  rewrite bind_unfold. unfold removeJobsFromThreadIndex.
  destruct (filter _ _) as [|id ids];
    [rewrite mret_unfold|unfold attempt at 1; rewrite Hok];
    (rewrite bind_unfold; unfold attempt at 1; rewrite Hok;
     rewrite bind_unfold, gets_unfold, bind_unfold;
     destruct (getNewerJobsByThreadId _ _ _ _) as [|oldest more];
     [by rewrite mret_unfold|unfold job_promote, call; by rewrite Hok]).
Qed.

(** C2.  When [processMessages] holds the lock, no collaborator rejects a
    call and the run is reported completed, it returns a result, and by then
    every job of the batch is gone from the queue and its id from the
    thread's index; the jobs that count as newer are exactly the jobs still
    indexed for the thread whose timestamp is strictly greater than the mark
    (the greatest timestamp of the batch); when there is one, the one with
    the smallest timestamp is promoted, as the last call of the cycle, and
    nothing else is promoted. *)
Theorem C2_cleanup_and_promotion (opts : Options) (env : Env) (thread : string)
    (jobs : list Job) (s : State) :
  jobs ≠ [] →
  Forall (λ j, job_id j ≠ "") jobs →
  strs (shared s) !! lock_key opts thread = None →
  (∀ c, fails env c = None) →
  returned (snd (waitForRunCompletion opts env thread (created_run env) s)) = true →
  let s' := fst (processMessages opts env thread jobs s) in
  returned (snd (processMessages opts env thread jobs s)) = true ∧
  ∃ (mark : Z) (evs : list Event),
    (∃ j, j ∈ jobs ∧ timestamp (job_data j) = mark) ∧
    (∀ j, j ∈ jobs → timestamp (job_data j) <= mark) ∧
    (∀ j, j ∈ jobs → queue (shared s') !! job_id j = None) ∧
    (∀ j, j ∈ jobs → job_id j ∉ Redis.sMembers (threadJobs_key opts thread) s') ∧
    (∀ j, j ∈ getNewerJobsByThreadId opts thread mark s' ↔
          j ∈ getJobsByThreadId opts thread s' ∧ timestamp (job_data j) > mark) ∧
    Forall (λ e, ¬ is_promote e) evs ∧
    match getNewerJobsByThreadId opts thread mark s' with
    | [] => trace s' = trace s ++ evs
    | oldest :: _ =>
        (∀ j, j ∈ getNewerJobsByThreadId opts thread mark s' →
              timestamp (job_data oldest) <= timestamp (job_data j)) ∧
        trace s' = trace s ++ evs ++ [EvPromote (job_id oldest)]
    end.
Proof.
  intros Hne Hids Hfree Hok Hrun s'.
  pose proof (processMessages_returns opts env thread jobs s Hne Hfree Hok Hrun) as Hret.
  split; [done|].
  by apply processMessages_returned_spec.
Qed.

Lemma C2_witness :
  returned (snd (processMessages Sample.opts Sample.busy "T1"
                   [Sample.job_A; Sample.job_B; Sample.job_C] Sample.after_ABC)) = true ∧
  ∀ j, j ∈ [Sample.job_A; Sample.job_B; Sample.job_C] →
       queue (shared (fst (processMessages Sample.opts Sample.busy "T1"
                             [Sample.job_A; Sample.job_B; Sample.job_C]
                             Sample.after_ABC))) !! job_id j = None.
Proof.
  destruct (C2_cleanup_and_promotion Sample.opts Sample.busy "T1"
              [Sample.job_A; Sample.job_B; Sample.job_C] Sample.after_ABC)
    as (Hret & mark & evs & _ & _ & Hgone & _).
  - discriminate.
  - repeat constructor; discriminate.
  - reflexivity.
  - reflexivity.
  - reflexivity.
  - split; [exact Hret|exact Hgone].
Defined.

(** The message that arrived during the run is promoted when the cycle ends,
    and the three batched jobs are gone. *)
Example late_arrival_is_promoted :
  let final := processMessages Sample.opts Sample.busy "T1"
                 [Sample.job_A; Sample.job_B; Sample.job_C] Sample.after_ABC in
  last (trace (fst final)) = Some (EvPromote (job_id Sample.job_D)) ∧
  Redis.sMembers (threadJobs_key Sample.opts "T1") (fst final) = [job_id Sample.job_D] ∧
  getJobsByThreadId Sample.opts "T1" (fst final) = [Sample.job_D].
Proof. vm_compute. done. Qed.

(** ** The worker callback *)

(** C3.  A wake-up on a job of a thread [T]: with no live job indexed for
    [T] the callback returns at once; otherwise, if the lock key of [T]
    exists, the only thing it does is to move the woken job to the delayed
    set, due 5000 ms from now; otherwise it compares the woken job with the
    oldest live job of [T]: it runs [processMessages] on the sorted live jobs
    when the ids agree and returns without any effect when they differ. *)
Theorem C3_worker_wakeup (opts : Options) (env : Env) (job : Job) (s : State) :
  let thread := threadId (job_data job) in
  let live := getJobsByThreadId opts thread s in
  let lockKey := lock_key opts thread in
  (live = [] → worker opts env job s = (s, Returned None)) ∧
  (live ≠ [] → is_Some (stored lockKey s) →
     fst (worker opts env job s)
     = log (EvMoveToDelayed (job_id job) (clock s + 5000)) s ∧
     snd (worker opts env job s)
     = match fails env CMoveToDelayed with
       | Some e => Thrown e
       | None => Returned None
       end) ∧
  (live ≠ [] → stored lockKey s = None →
     ∃ oldest,
       oldest ∈ live ∧
       (∀ j, j ∈ live → timestamp (job_data oldest) <= timestamp (job_data j)) ∧
       (job_id oldest = job_id job →
          worker opts env job s
          = (processMessages opts env thread (Js.sort by_timestamp live)
               ≫= λ result, mret (Some result)) s) ∧
       (job_id oldest ≠ job_id job → worker opts env job s = (s, Returned None))).
Proof.
  intros thread live lockKey. unfold worker. rewrite bind_unfold, gets_unfold.
  fold thread. fold live. fold lockKey.
  split_and!.
  - by intros ->.
  - intros Hlive [holder Hheld].
    destruct live as [|j0 live0]; [done|].
    rewrite bind_unfold, gets_unfold. unfold Redis.exists_.
    unfold stored in Hheld. rewrite Hheld.
    rewrite bool_decide_true by done.
    rewrite bind_unfold, gets_unfold, bind_unfold.
    unfold job_moveToDelayed, call. by destruct (fails env CMoveToDelayed).
  - intros Hlive Hfree.
    destruct live as [|j0 live0] eqn:Hl; [done|]. rewrite <- Hl in *.
    rewrite bind_unfold, gets_unfold. unfold Redis.exists_.
    unfold stored in Hfree. rewrite Hfree.
    rewrite bool_decide_false by (by intros ?).
    pose proof (sort_sorted live) as Hsorted.
    pose proof (sort_perm by_timestamp live) as Hperm.
    destruct (Js.sort by_timestamp live) as [|oldest more] eqn:Hsort.
    { apply sort_nil_inv in Hsort. congruence. }
    exists oldest. split_and!.
    + rewrite <- Hperm. by left.
    + intros j Hj. apply (sorted_head_oldest oldest more Hsorted). by rewrite Hperm.
    + intros Hsame. by rewrite bool_decide_false by (by intros ?).
    + intros Hdiff. by rewrite bool_decide_true.
Qed.

(** The wake-ups of "A", "B" and "C" once their delay has elapsed: only the
    wake-up of "A" runs the batch; with the lock held, "A" is moved back to
    the delayed set. *)
Example only_the_oldest_triggers :
  let s := Sample.after_ABC in
  let held := Redis.set (lock_key Sample.opts "T1") "1700000009000" s in
  worker Sample.opts Sample.calm Sample.job_B s = (s, Returned None) ∧
  worker Sample.opts Sample.calm Sample.job_C s = (s, Returned None) ∧
  snd (worker Sample.opts Sample.calm Sample.job_A s)
  = Returned (Some {| pr_threadId := "T1";
                      messagesProcessed := 3;
                      processedJobIds := map job_id [Sample.job_A; Sample.job_B; Sample.job_C];
                      pr_runId := "run_1";
                      pr_status := "completed" |}) ∧
  worker Sample.opts Sample.calm Sample.job_A held
  = (log (EvMoveToDelayed (job_id Sample.job_A) (clock s + 5000)) held, Returned None).
Proof. vm_compute. done. Qed.

(** ** The backoff schedule *)

Lemma nextDelay_capped (d : Q) : (nextDelay d <= maxDelay)%Q.
Proof. apply Q.le_min_r. Qed.

Lemma nextDelay_grows (d : Q) : (0 <= d)%Q → (d <= maxDelay)%Q → (d <= nextDelay d)%Q.
Proof. intros Hpos Hcap. apply Q.min_glb; [lra|done]. Qed.

Lemma delay_at_range (n : nat) : (initialDelay <= delay_at n)%Q ∧ (delay_at n <= maxDelay)%Q.
Proof.
  induction n as [|n [IHlo IHhi]]; simpl.
  - unfold initialDelay, maxDelay. split; lra.
  - split; [|apply nextDelay_capped].
    eapply Qle_trans; [exact IHlo|]. apply nextDelay_grows; [|done].
    unfold initialDelay in IHlo. lra.
Qed.

Lemma delay_at_saturates (n : nat) : (7 <= n)%nat → (delay_at n == maxDelay)%Q.
Proof.
  induction 1 as [|n Hn IH].
  - vm_compute. reflexivity.
  - simpl. unfold nextDelay. rewrite IH. apply Q.min_r. unfold maxDelay. lra.
Qed.

Lemma sleep_delays_app (a b : list Event) :
  sleep_delays (a ++ b) = sleep_delays a ++ sleep_delays b.
Proof. apply omap_app. Qed.

Lemma sleep_delays_sleep (t : Z) (d : Q) (evs : list Event) :
  sleep_delays (EvSleep t d :: evs) = d :: sleep_delays evs.
Proof. reflexivity. Qed.

(** The sleeps of the loop follow the schedule: entered with the delay of
    iteration [n], the loop sleeps [delay_at n], [delay_at (n + 1)], ... *)
Lemma poll_loop_schedule (opts : Options) (thread run : string) (startTime : Z)
    (script : list PollStep) (status : string) (n : nat) (s : State) :
  ∃ evs k,
    trace (fst (poll_loop opts thread run startTime script status (delay_at n) s))
    = trace s ++ evs ∧
    sleep_delays evs = map delay_at (seq n k).
Proof.
  revert status n s. induction script as [|p rest IH]; intros status n s; simpl.
  - exists [], 0%nat. repeat case_match; by rewrite app_nil_r.
  - destruct (polling status);
      [|exists [], 0%nat; case_bool_decide; by rewrite app_nil_r].
    destruct (_ >? _); [exists [], 0%nat; by rewrite app_nil_r|].
    assert (∀ st evs0 s',
              trace s' = trace s ++ EvSleep (clock s) (delay_at n) :: evs0 →
              sleep_delays evs0 = [] →
              ∃ evs k,
                trace (fst (poll_loop opts thread run startTime rest st
                              (nextDelay (delay_at n)) s'))
                = trace s ++ evs ∧
                sleep_delays evs = map delay_at (seq n k)) as Hnext.
    { intros st evs0 s' Htr Hnone.
      destruct (IH st (S n) s') as (evs & k & Hevs & Hk).
      exists (EvSleep (clock s) (delay_at n) :: evs0 ++ evs), (S k).
      split.
      - simpl in Hevs. rewrite Hevs, Htr. by rewrite <- app_assoc.
      - by rewrite sleep_delays_sleep, sleep_delays_app, Hnone, Hk. }
    assert (∀ evs0 s',
              trace s' = trace s ++ EvSleep (clock s) (delay_at n) :: evs0 →
              sleep_delays evs0 = [] →
              ∃ evs k, trace s' = trace s ++ evs ∧
                       sleep_delays evs = map delay_at (seq n k)) as Hstop.
    { intros evs0 s' Htr Hnone.
      exists (EvSleep (clock s) (delay_at n) :: evs0), 1%nat.
      split; [done|]. by rewrite sleep_delays_sleep, Hnone. }
    destruct (retrieved p) as [e|checkRun].
    { eapply Hstop; [|shelve]. unfold retrieve, sleep, advance, log. simpl.
      rewrite <- app_assoc. reflexivity. }
    repeat case_match;
      first [ eapply Hnext | eapply Hstop ];
      try (unfold retrieve, sleep, advance, log; simpl;
           rewrite <- ?app_assoc; simpl; reflexivity).
    Unshelve. all: reflexivity.
Qed.

(** C7.  The polling delay starts at 1000 ms, each iteration multiplies it
    by 1.5 and caps it at 15000 ms, so that it never decreases and never
    exceeds 15000 ms; the sleeps [waitForRunCompletion] performs follow this
    schedule, in order, from its first iteration. *)
Theorem C7_backoff_schedule :
  (delay_at 0 == 1000)%Q ∧
  (∀ n, delay_at (S n) == Qmin (delay_at n * 1.5) 15000)%Q ∧
  (∀ n, delay_at n <= delay_at (S n))%Q ∧
  (∀ n, delay_at n <= 15000)%Q ∧
  (∀ opts env thread run s, ∃ evs k,
     trace (fst (waitForRunCompletion opts env thread run s)) = trace s ++ evs ∧
     sleep_delays evs = map delay_at (seq 0 k)).
Proof.
  split_and!.
  - reflexivity.
  - intros n. reflexivity.
  - intros n. destruct (delay_at_range n) as [Hlo Hhi]. simpl.
    apply nextDelay_grows; [|done]. unfold initialDelay in Hlo. lra.
  - intros n. apply delay_at_range.
  - intros opts env thread run s. unfold waitForRunCompletion.
    apply (poll_loop_schedule opts thread run (clock s) (polls env) "in_progress" 0 s).
Qed.

(** ** Tool calls *)

(** C5.  An iteration of the loop whose poll reports [requires_action]:
    with a handler configured and a [submit_tool_outputs] action, the handler
    is called with the thread, the run and the tool calls; when it resolves,
    its outputs are submitted and the loop goes on with the status
    [in_progress]; when it rejects, its error is the error of the run.  With
    no handler configured, the run fails with the status [requires_action]. *)
Theorem C5_requires_action (opts : Options) (thread run : string) (startTime : Z)
    (p : PollStep) (rest : list PollStep) (status : string) (delay : Q) (s : State)
    (checkRun : RunSnapshot) :
  polling status = true →
  clock s - startTime <= maxWaitTime →
  retrieved p = inr checkRun →
  run_status checkRun = "requires_action" →
  let polled := retrieve thread run (latency p) (sleep delay (slept p) s) in
  (∀ handler ra,
     handleRequiresAction opts = Some handler →
     required_action checkRun = Some ra →
     ra_type ra = "submit_tool_outputs" →
     let toolCalls := map toToolCall (ra_tool_calls ra) in
     let called := log (EvHandler thread run toolCalls) polled in
     match handler thread run toolCalls with
     | inr toolOutputs =>
         let submitted_ := log (EvSubmitToolOutputs thread run toolOutputs) called in
         poll_loop opts thread run startTime (p :: rest) status delay s
         = match submitted p with
           | None => poll_loop opts thread run startTime rest "in_progress"
                       (nextDelay delay) submitted_
           | Some e => (submitted_, Thrown e)
           end
     | inl e =>
         poll_loop opts thread run startTime (p :: rest) status delay s
         = (called, Thrown e)
     end) ∧
  (handleRequiresAction opts = None →
     poll_loop opts thread run startTime (p :: rest) status delay s
     = (polled, Thrown (RunEnded "requires_action" thread))).
Proof.
  intros Hpolling Hcheck Hpoll Hstatus polled.
  assert ((clock s - startTime >? maxWaitTime) = false) as Hnot by lia.
  split.
  - intros handler ra Hh Hra Htype toolCalls called.
    simpl. rewrite Hpolling, Hnot, Hpoll, Hstatus, Hh, Hra, Htype.
    rewrite !bool_decide_true by done.
    fold polled. fold toolCalls. fold called.
    destruct (handler thread run toolCalls) as [e|toolOutputs]; [done|].
    by destruct (submitted p).
  - intros Hnone. simpl. rewrite Hpolling, Hnot, Hpoll, Hstatus, Hnone.
    rewrite bool_decide_true by done. fold polled.
    by destruct rest.
Qed.

Lemma C5_witness :
  poll_loop Sample.opts_with_handler "T1" "run_1" Sample.t0
    (Sample.poll 1000 Sample.needs_tools :: [Sample.poll 1500 Sample.completed])
    "in_progress" initialDelay Sample.start
  = poll_loop Sample.opts_with_handler "T1" "run_1" Sample.t0
      [Sample.poll 1500 Sample.completed] "in_progress" (nextDelay initialDelay)
      (log (EvSubmitToolOutputs "T1" "run_1"
              [ {| tool_call_id := "call_1"; output := "{1}" |};
                {| tool_call_id := "call_2"; output := "{2}" |} ])
         (log (EvHandler "T1" "run_1" Sample.two_calls)
            (retrieve "T1" "run_1" 0 (sleep initialDelay 1000 Sample.start)))).
Proof.
  destruct (C5_requires_action Sample.opts_with_handler "T1" "run_1" Sample.t0
              (Sample.poll 1000 Sample.needs_tools) [Sample.poll 1500 Sample.completed]
              "in_progress" initialDelay Sample.start Sample.needs_tools)
    as [Hhandled _].
  - reflexivity.
  - vm_compute. discriminate.
  - reflexivity.
  - reflexivity.
  - exact (Hhandled Sample.echo _ eq_refl eq_refl eq_refl).
Defined.

(** Two tool calls, two outputs submitted, and the run then completes. *)
Example tool_outputs_are_submitted :
  let final := waitForRunCompletion Sample.opts_with_handler Sample.tooling
                 "T1" "run_1" Sample.start in
  snd final = Returned "completed" ∧
  EvSubmitToolOutputs "T1" "run_1"
    [ {| tool_call_id := "call_1"; output := "{1}" |};
      {| tool_call_id := "call_2"; output := "{2}" |} ] ∈ trace (fst final).
Proof.
  split; [reflexivity|]. vm_compute.
  do 3 apply list_elem_of_further. apply list_elem_of_here.
Qed.

(** ** The wall-clock ceiling *)

Lemma poll_loop_timeout (opts : Options) (thread run : string) (startTime : Z)
    (script : list PollStep) (status : string) (delay : Q) (s : State) :
  polling status = true →
  clock s - startTime > maxWaitTime →
  poll_loop opts thread run startTime script status delay s
  = (s, Thrown (RunTimeout thread)).
Proof.
  intros Hpolling Hlate.
  assert ((clock s - startTime >? maxWaitTime) = true) as Hgt by lia.
  destruct script; simpl; by rewrite Hpolling, Hgt.
Qed.

Ltac poll_cases Hnext Hstop :=
  repeat case_match;
  first [ eapply Hnext | eapply Hstop ];
  try (unfold retrieve, sleep, advance, log; simpl; rewrite <- ?app_assoc; simpl;
       first [ reflexivity | lia ]).

Lemma poll_loop_sleeps (opts : Options) (thread run : string) (startTime : Z)
    (script : list PollStep) (status : string) (delay : Q) (s : State) :
  (delay <= maxDelay)%Q →
  ∃ evs,
    trace (fst (poll_loop opts thread run startTime script status delay s))
    = trace s ++ evs ∧
    sleeps_within startTime maxWaitTime evs.
Proof.
  revert status delay s.
  induction script as [|p rest IH]; intros status delay s Hcap; simpl.
  - exists []. repeat case_match; (rewrite app_nil_r; split; [done|apply Forall_nil_2]).
  - destruct (polling status);
      [|exists []; case_bool_decide; (rewrite app_nil_r; split; [done|apply Forall_nil_2])].
    destruct (Z.gtb_spec (clock s - startTime) maxWaitTime) as [Hlate|Hintime];
      [exists []; (rewrite app_nil_r; split; [done|apply Forall_nil_2])|].
    assert (∀ st evs0 s',
              trace s' = trace s ++ EvSleep (clock s) delay :: evs0 →
              Forall (λ e, is_poll_event e ∧ sleep_delays [e] = []) evs0 →
              ∃ evs,
                trace (fst (poll_loop opts thread run startTime rest st
                              (nextDelay delay) s'))
                = trace s ++ evs ∧
                sleeps_within startTime maxWaitTime evs) as Hnext.
    { intros st evs0 s' Htr Hnone.
      destruct (IH st (nextDelay delay) s' (nextDelay_capped delay)) as (evs & Hevs & Hin).
      exists (EvSleep (clock s) delay :: evs0 ++ evs).
      split; [by rewrite Hevs, Htr, <- app_assoc|].
      apply Forall_cons. split; [done|]. apply Forall_app. split; [|done].
      eapply Forall_impl; [exact Hnone|]. intros [] [? Hd]; try done; discriminate Hd. }
    assert (∀ evs0 s',
              trace s' = trace s ++ EvSleep (clock s) delay :: evs0 →
              Forall (λ e, is_poll_event e ∧ sleep_delays [e] = []) evs0 →
              ∃ evs, trace s' = trace s ++ evs ∧
                     sleeps_within startTime maxWaitTime evs) as Hstop.
    { intros evs0 s' Htr Hnone.
      exists (EvSleep (clock s) delay :: evs0). split; [done|].
      apply Forall_cons. split; [done|].
      eapply Forall_impl; [exact Hnone|]. intros [] [? Hd]; try done; discriminate Hd. }
    poll_cases Hnext Hstop; repeat constructor.
Qed.

Lemma poll_loop_overshoot (opts : Options) (thread run : string) (startTime : Z)
    (script : list PollStep) (status : string) (delay : Q) (s : State) (B : Z) :
  0 <= B →
  Forall (λ p, slept p + latency p <= B) script →
  clock (fst (poll_loop opts thread run startTime script status delay s)) - startTime
  <= Z.max (clock s - startTime) (maxWaitTime + B).
Proof.
  intros HB Hsteps. revert status delay s.
  induction Hsteps as [|p rest Hp _ IH]; intros status delay s; simpl.
  - repeat case_match; simpl; lia.
  - destruct (polling status); [|case_bool_decide; simpl; lia].
    destruct (Z.gtb_spec (clock s - startTime) maxWaitTime) as [Hlate|Hintime];
      [simpl; lia|].
    assert (∀ st d s',
              clock s' = clock s + slept p + latency p →
              clock (fst (poll_loop opts thread run startTime rest st d s')) - startTime
              <= Z.max (clock s - startTime) (maxWaitTime + B)) as Hnext.
    { intros st d s' Hclock. specialize (IH st d s'). lia. }
    assert (∀ s',
              clock s' = clock s + slept p + latency p →
              clock s' - startTime
              <= Z.max (clock s - startTime) (maxWaitTime + B)) as Hstop.
    { intros s' Hclock. lia. }
    poll_cases Hnext Hstop.
Qed.

Lemma poll_loop_settles (opts : Options) (thread run : string) (startTime : Z)
    (script : list PollStep) (status : string) (delay : Q) (s : State) :
  Forall (λ p, 1000 <= slept p ∧ 0 <= latency p) script →
  clock s - startTime + 1000 * Z.of_nat (length script) > maxWaitTime →
  snd (poll_loop opts thread run startTime script status delay s) ≠ Pending.
Proof.
  intros Hsteps. revert status delay s.
  induction Hsteps as [|p rest [Hslept Hlat] _ IH]; intros status delay s Hlen; simpl.
  - destruct (polling status); [|by case_bool_decide].
    destruct (Z.gtb_spec (clock s - startTime) maxWaitTime); [done|].
    simpl in Hlen. lia.
  - destruct (polling status); [|by case_bool_decide].
    destruct (Z.gtb_spec (clock s - startTime) maxWaitTime) as [Hlate|Hintime]; [done|].
    assert (∀ st d s',
              clock s' = clock s + slept p + latency p →
              snd (poll_loop opts thread run startTime rest st d s') ≠ Pending) as Hnext.
    { intros st d s' Hclock. apply IH. rewrite Hclock.
      rewrite length_cons in Hlen. lia. }
    repeat case_match; try done;
      apply Hnext; unfold retrieve, sleep, advance, log; simpl; lia.
Qed.

(** A run whose last poll starts its sleep 287170 ms in: the poll is made
    302170 ms after the start and the run is reported as completed. *)
Lemma C6_counterexample :
  let final := waitForRunCompletion Sample.opts Sample.slow "T1" "run_1" Sample.start in
  snd final = Returned "completed" ∧
  clock (fst final) - clock Sample.start = 302170 ∧
  clock (fst final) - clock Sample.start > maxWaitTime ∧
  last (trace (fst final)) = Some (EvRetrieve "T1" "run_1").
Proof. vm_compute. done. Qed.

(** C6 (amended).  [waitForRunCompletion] compares the elapsed time with the
    fixed ceiling of 300000 ms at the start of each iteration, while the run
    is queued or in progress: beyond the ceiling it fails with the timeout
    error without any further call.  Hence every sleep begins at most
    300000 ms after the start and is asked to last at most 15000 ms; the
    whole wait outlasts the ceiling by at most one iteration; and when each
    sleep lasts a second or more, 301 recorded polls are enough for the
    method to settle. *)
Theorem C6_timeout_check (opts : Options) (env : Env) (thread run : string)
    (s : State) :
  let final := waitForRunCompletion opts env thread run s in
  (∀ startTime script status delay s0,
     polling status = true →
     clock s0 - startTime > maxWaitTime →
     poll_loop opts thread run startTime script status delay s0
     = (s0, Thrown (RunTimeout thread))) ∧
  (∃ evs, trace (fst final) = trace s ++ evs ∧ sleeps_within (clock s) maxWaitTime evs) ∧
  (∀ B, 0 <= B →
        Forall (λ p, slept p + latency p <= B) (polls env) →
        clock (fst final) - clock s <= maxWaitTime + B) ∧
  (Forall (λ p, 1000 <= slept p ∧ 0 <= latency p) (polls env) →
   (length (polls env) > 300)%nat →
   snd final ≠ Pending).
Proof.
  intros final. unfold final, waitForRunCompletion. split_and!.
  - intros. by apply poll_loop_timeout.
  - apply poll_loop_sleeps. unfold initialDelay, maxDelay. lra.
  - intros B HB Hsteps.
    pose proof (poll_loop_overshoot opts thread run (clock s) (polls env) "in_progress"
                  initialDelay s B HB Hsteps) as H.
    unfold maxWaitTime in *. lia.
  - intros Hsteps Hlen. apply poll_loop_settles; [done|].
    unfold maxWaitTime. lia.
Qed.

(** ** Listing the jobs of a thread *)

(** The index lists "B" before "A": so does [getJobsByThreadId], although "A"
    is the older job. *)
Lemma C8_counterexample :
  getJobsByThreadId Sample.opts "T1" Sample.shuffled = [Sample.job_B; Sample.job_A] ∧
  timestamp (job_data Sample.job_A) < timestamp (job_data Sample.job_B) ∧
  ¬ StronglySorted ts_le (getJobsByThreadId Sample.opts "T1" Sample.shuffled).
Proof.
  assert (getJobsByThreadId Sample.opts "T1" Sample.shuffled
          = [Sample.job_B; Sample.job_A]) as Hjobs by (vm_compute; reflexivity).
  split_and!; [done|reflexivity|].
  rewrite Hjobs. intros Hsorted.
  apply StronglySorted_inv in Hsorted as [_ Hall].
  apply Forall_cons in Hall as [Hle _].
  vm_compute in Hle. by apply Hle.
Qed.

(** C8 (amended).  [getJobsByThreadId] returns the live jobs of the thread
    in the order in which the index enumerates their ids, not in timestamp
    order (each caller sorts the result): a job is returned exactly when its
    id is indexed for the thread and the job is still in the queue, ids whose
    job is gone are skipped, and the ids are fetched in consecutive batches
    of at most 20. *)
Theorem C8_live_jobs_in_index_order (opts : Options) (thread : string) (s : State) :
  let jobIds := Redis.sMembers (threadJobs_key opts thread) s in
  let batches := fetch_batches jobIds 0 in
  getJobsByThreadId opts thread s = omap (getJob s) jobIds ∧
  getJobsByThreadId opts thread s = concat (map (fetch_batch s) batches) ∧
  concat batches = jobIds ∧
  Forall (λ batchIds, (length batchIds <= 20)%nat) batches ∧
  (∀ j, j ∈ getJobsByThreadId opts thread s ↔
        job_id j ∈ jobIds ∧ queue (shared s) !! job_id j = Some (job_data j)) ∧
  (∀ id, id ∈ jobIds → queue (shared s) !! id = None →
         ∀ j, j ∈ getJobsByThreadId opts thread s → job_id j ≠ id) ∧
  StronglySorted ts_le (Js.sort by_timestamp (getJobsByThreadId opts thread s)).
Proof.
  intros jobIds batches. split_and!.
  - apply getJobsByThreadId_spec.
  - unfold getJobsByThreadId. fold jobIds. fold batches.
    destruct jobIds as [|id ids] eqn:Hids; [|done].
    subst batches. by simp fetch_batches.
  - unfold batches. rewrite fetch_batches_concat. apply drop_0.
  - apply fetch_batches_bounded.
  - intros j. apply elem_of_getJobsByThreadId.
  - intros id Hid Hgone j Hj Heq.
    apply elem_of_getJobsByThreadId in Hj as [_ Hq]. congruence.
  - apply sort_sorted.
Qed.

(** ** Job ids *)

Lemma append_cons (c : ascii) (a b : string) : String c a +:+ b = String c (a +:+ b).
Proof. reflexivity. Qed.

Lemma append_nil_r (a : string) : a +:+ "" = a.
Proof. induction a as [|c a IH]; [done|]. by rewrite append_cons, IH. Qed.

Lemma append_snoc (a : string) (c : ascii) (b : string) :
  a +:+ String c b = (a +:+ String c "") +:+ b.
Proof. induction a as [|c' a IH]; [done|]. by rewrite !append_cons, IH. Qed.

Lemma length_append_snoc (a : string) (c : ascii) :
  String.length (a +:+ String c "") = S (String.length a).
Proof. induction a as [|c' a IH]; [done|]. rewrite append_cons. simpl. by rewrite IH. Qed.

Lemma compare_append_prefix (p a b : string) :
  String.compare (p +:+ a) (p +:+ b) = String.compare a b.
Proof.
  induction p as [|c p IH]; simpl; [done|].
  unfold Ascii.compare. by rewrite N.compare_refl.
Qed.

Lemma dec_val_acc_shift (acc : N) (s : string) :
  (dec_val_acc acc s = acc * 10 ^ N.of_nat (String.length s) + dec_val s)%N.
Proof.
  unfold dec_val. revert acc. induction s as [|c s IH]; intros acc; simpl.
  - lia.
  - rewrite (IH (10 * acc + _)%N), (IH (10 * 0 + _)%N).
    rewrite Nat2N.inj_succ, N.pow_succ_r'. lia.
Qed.

Lemma dec_val_acc_app (acc : N) (a b : string) :
  dec_val_acc acc (a +:+ b) = dec_val_acc (dec_val_acc acc a) b.
Proof. revert acc. induction a as [|c a IH]; intros acc; simpl; [done|]. apply IH. Qed.

Lemma is_digits_app (a b : string) : is_digits a → is_digits b → is_digits (a +:+ b).
Proof. induction a as [|c a IH]; simpl; [done|]. intros [? ?] ?. split; auto. Qed.

Lemma dec_val_bound (s : string) :
  is_digits s → (dec_val s < 10 ^ N.of_nat (String.length s))%N.
Proof.
  induction s as [|c s IH]; simpl; [intros _; unfold dec_val; simpl; lia|].
  intros [Hc Hs]. specialize (IH Hs). unfold dec_val. simpl.
  rewrite dec_val_acc_shift. unfold is_digit in Hc.
  rewrite Nat2N.inj_succ, N.pow_succ_r'. fold (dec_val s).
  assert (N_of_ascii c - 48 <= 9)%N as Hd by lia.
  set (d := (N_of_ascii c - 48)%N) in *.
  set (w := (10 ^ N.of_nat (String.length s))%N) in *.
  assert (d * w <= 9 * w)%N by (apply N.mul_le_mono_r; lia).
  lia.
Qed.

(** On numerals of the same length the lexicographic order is the numeric
    order. *)
Lemma numerals_compare (a b : string) :
  is_digits a → is_digits b → String.length a = String.length b →
  (dec_val a < dec_val b)%N → String.compare a b = Lt.
Proof.
  revert b. induction a as [|c1 a IH]; intros [|c2 b]; simpl; try done.
  intros [Hc1 Ha] [Hc2 Hb] [= Hlen]. unfold dec_val. simpl.
  rewrite (dec_val_acc_shift _ a), (dec_val_acc_shift _ b), Hlen.
  pose proof (dec_val_bound a Ha) as Hba. pose proof (dec_val_bound b Hb) as Hbb.
  rewrite Hlen in Hba. unfold is_digit in Hc1, Hc2.
  set (w := (10 ^ N.of_nat (String.length b))%N) in *.
  intros Hlt. unfold Ascii.compare.
  destruct (N.compare_spec (N_of_ascii c1) (N_of_ascii c2)) as [Heq|Hlt'|Hgt].
  - apply IH; try done. rewrite Heq in Hlt. lia.
  - done.
  - exfalso.
    assert (N_of_ascii c2 - 48 + 1 <= N_of_ascii c1 - 48)%N as Hd by lia.
    set (d1 := (N_of_ascii c1 - 48)%N) in *.
    set (d2 := (N_of_ascii c2 - 48)%N) in *.
    fold (dec_val a) in Hlt. fold (dec_val b) in Hlt.
    assert ((d2 + 1) * w <= d1 * w)%N by (apply N.mul_le_mono_r; lia).
    lia.
Qed.

Lemma pretty_N_char_code (x : N) : (x < 10)%N → N_of_ascii (pretty_N_char x) = (48 + x)%N.
Proof.
  intros Hx. destruct x as [|p]; [reflexivity|].
  do 4 (try destruct p as [p|p|]); try reflexivity; lia.
Qed.

(** [pretty_N_go x s] writes the decimal numeral of [x] in front of [s]: no
    digit for 0, and no leading zero otherwise. *)
Lemma pretty_N_go_numeral (x : N) (s : string) :
  ∃ d, pretty_N_go x s = d +:+ s ∧ is_digits d ∧ dec_val d = x ∧
       (x = 0%N → d = "") ∧
       (x ≠ 0%N → (10 ^ N.of_nat (String.length d) <= 10 * x)%N).
Proof.
  revert s. induction (N.lt_wf_0 x) as [x _ IH]; intros s.
  destruct (decide (x = 0)%N) as [->|Hpos].
  { exists "". by rewrite pretty_N_go_0. }
  rewrite pretty_N_go_step by lia.
  destruct (IH (x `div` 10)%N) with (s := String (pretty_N_char (x `mod` 10)) s)
    as (d & Hd & Hdigits & Hval & Hzero & Hlead).
  { apply N.div_lt; lia. }
  assert (x `mod` 10 < 10)%N as Hmod by (apply N.mod_lt; lia).
  assert (x = 10 * x `div` 10 + x `mod` 10)%N as Hdm by (apply N.div_mod; lia).
  set (q := (x `div` 10)%N) in *. set (m := (x `mod` 10)%N) in *.
  clearbody q m.
  exists (d +:+ String (pretty_N_char m) "").
  split_and!.
  - rewrite Hd. apply append_snoc.
  - apply is_digits_app; [done|]. simpl. split; [|done].
    unfold is_digit. rewrite pretty_N_char_code by done. lia.
  - unfold dec_val in *. rewrite dec_val_acc_app, Hval. simpl.
    rewrite pretty_N_char_code by done. lia.
  - done.
  - intros _. destruct (decide (q = 0)%N) as [Hq|Hq].
    + rewrite (Hzero Hq). simpl. lia.
    + specialize (Hlead Hq). rewrite length_append_snoc, Nat2N.inj_succ, N.pow_succ_r'.
      lia.
Qed.

Lemma toString_numeral (t : Z) :
  0 <= t → is_digits (Js.toString t) ∧ dec_val (Js.toString t) = Z.to_N t.
Proof.
  intros Ht. unfold Js.toString, pretty, pretty_Z.
  destruct t as [|p|p]; [by vm_compute|..|lia].
  unfold pretty, pretty_positive, pretty, pretty_N.
  rewrite decide_False by done.
  destruct (pretty_N_go_numeral (N.pos p) "") as (d & Hd & Hdigits & Hval & _).
  by rewrite Hd, append_nil_r.
Qed.

(** A reading of [Date.now()] from 2001-09-09 to 2286-11-20 prints as
    thirteen digits. *)
Lemma toString_length_13 (t : Z) :
  10 ^ 12 <= t < 10 ^ 13 → String.length (Js.toString t) = 13%nat.
Proof.
  intros Ht. unfold Js.toString, pretty, pretty_Z.
  destruct t as [|p|p]; [lia| |lia].
  unfold pretty, pretty_positive, pretty, pretty_N.
  rewrite decide_False by done.
  destruct (pretty_N_go_numeral (N.pos p) "") as (d & Hd & Hdigits & Hval & _ & Hlead).
  rewrite Hd, append_nil_r.
  specialize (Hlead ltac:(done)).
  pose proof (dec_val_bound d Hdigits) as Hub. rewrite Hval in Hub.
  assert (N.pos p < 10 ^ 13)%N as Hhi by lia.
  assert (10 ^ 12 <= N.pos p)%N as Hlo by lia.
  assert (10 ^ N.of_nat (String.length d) < 10 ^ 14)%N as Hlt.
  { eapply N.le_lt_trans; [exact Hlead|]. lia. }
  assert (10 ^ 12 < 10 ^ N.of_nat (String.length d))%N as Hgt.
  { eapply N.le_lt_trans; [exact Hlo|done]. }
  apply N.pow_lt_mono_r_iff in Hlt; [|lia].
  apply N.pow_lt_mono_r_iff in Hgt; [|lia].
  lia.
Qed.

Lemma jobId_of_nonempty (thread : string) (ts : Z) : jobId_of thread ts ≠ "".
Proof. done. Qed.

(** "thread_T1_999999999999" (September 2001) sorts after
    "thread_T1_1000000000000", the id of the next millisecond. *)
Lemma C9_counterexample :
  999999999999 < 1000000000000 ∧
  String.compare (jobId_of "T1" 999999999999) (jobId_of "T1" 1000000000000) = Gt.
Proof. split; [lia|]. vm_compute. reflexivity. Qed.

(** C9 (amended).  The id [addMessageToThread] returns is
    [`thread_${threadId}_${timestamp}`], a function of the thread and of the
    clock reading taken as the timestamp of the job.  For two timestamps of
    one thread whose decimal numerals have the same number of digits, the
    smaller timestamp gets the lexically smaller id; this covers any two
    readings of [Date.now()] from 10^12 (2001-09-09) up to 10^13
    (2286-11-20). *)
Theorem C9_job_id_order :
  (∀ opts thread msg instr s,
     snd (addMessageToThread opts thread msg instr s) = Returned (jobId_of thread (clock s)) ∧
     (queue (shared s) !! jobId_of thread (clock s) = None →
      queue (shared (fst (addMessageToThread opts thread msg instr s)))
        !! jobId_of thread (clock s)
      = Some {| threadId := thread; message := msg;
                timestamp := clock s; instructions := instr |})) ∧
  (∀ thread t1 t2,
     0 <= t1 < t2 →
     String.length (Js.toString t1) = String.length (Js.toString t2) →
     Js.str_lt (jobId_of thread t1) (jobId_of thread t2)) ∧
  (∀ thread t1 t2,
     10 ^ 12 <= t1 → t1 < t2 → t2 < 10 ^ 13 →
     Js.str_lt (jobId_of thread t1) (jobId_of thread t2)).
Proof.
  assert (∀ thread t1 t2,
            0 <= t1 < t2 →
            String.length (Js.toString t1) = String.length (Js.toString t2) →
            Js.str_lt (jobId_of thread t1) (jobId_of thread t2)) as Horder.
  { intros thread t1 t2 Ht Hlen.
    unfold Js.str_lt, jobId_of. rewrite !compare_append_prefix.
    destruct (toString_numeral t1) as [Hd1 Hv1]; [lia|].
    destruct (toString_numeral t2) as [Hd2 Hv2]; [lia|].
    apply numerals_compare; try done. rewrite Hv1, Hv2. lia. }
  split_and!.
  - intros opts thread msg instr s. split; [done|]. intros Hnew.
    unfold addMessageToThread. rewrite bind_unfold, gets_unfold.
    simpl. rewrite Hnew. apply lookup_insert_eq.
  - exact Horder.
  - intros thread t1 t2 Hlo Hlt Hhi. apply Horder; [lia|].
    rewrite !toString_length_13; [done|lia..].
Qed.

Lemma C9_witness :
  Js.str_lt (jobId_of "T1" Sample.t0) (jobId_of "T1" (Sample.t0 + 5)).
Proof.
  apply (proj1 (proj2 C9_job_id_order) "T1" Sample.t0 (Sample.t0 + 5)).
  - vm_compute. split; [discriminate|reflexivity].
  - reflexivity.
Defined.

(** * Further properties of the code *)

(** ** What [waitForRunCompletion] can return *)

Lemma poll_loop_returns_completed (opts : Options) (thread run : string)
    (startTime : Z) (script : list PollStep) (status : string) (delay : Q)
    (s : State) (result : string) :
  snd (poll_loop opts thread run startTime script status delay s) = Returned result →
  result = "completed".
Proof.
  revert status delay s.
  induction script as [|p rest IH]; intros status delay s; simpl.
  - repeat case_match; try done. intros [= <-].
    by match goal with H : bool_decide _ = true |- _ => apply bool_decide_eq_true in H end.
  - repeat case_match; try done; try apply IH. intros [= <-].
    by match goal with H : bool_decide _ = true |- _ => apply bool_decide_eq_true in H end.
Qed.

(** X1.  [waitForRunCompletion] returns nothing but "completed"; a poll that
    reports any other status than "in_progress", "queued", "completed" and
    "requires_action" (such as "failed", "cancelled" or "expired") ends the
    wait at once with the error naming that status. *)
Theorem X1_only_completed_returns :
  (∀ opts env thread run s result,
     snd (waitForRunCompletion opts env thread run s) = Returned result →
     result = "completed") ∧
  (∀ opts thread run startTime p rest status delay s checkRun,
     polling status = true →
     clock s - startTime <= maxWaitTime →
     retrieved p = inr checkRun →
     run_status checkRun ∉ ["in_progress"; "queued"; "completed"; "requires_action"] →
     poll_loop opts thread run startTime (p :: rest) status delay s
     = (retrieve thread run (latency p) (sleep delay (slept p) s),
        Thrown (RunEnded (run_status checkRun) thread))).
Proof.
  split.
  - intros opts env thread run s result. apply poll_loop_returns_completed.
  - intros opts thread run startTime p rest status delay s checkRun
      Hpolling Hcheck Hpoll Hstatus.
    assert ((clock s - startTime >? maxWaitTime) = false) as Hnot by lia.
    apply not_elem_of_cons in Hstatus as [Hn1 Hstatus].
    apply not_elem_of_cons in Hstatus as [Hn2 Hstatus].
    apply not_elem_of_cons in Hstatus as [Hn3 Hstatus].
    apply not_elem_of_cons in Hstatus as [Hn4 _].
    simpl. rewrite Hpolling, Hnot, Hpoll.
    rewrite (bool_decide_false _ Hn4).
    assert (polling (run_status checkRun) = false) as Hstop.
    { unfold polling. apply bool_decide_false.
      intros Hin. apply elem_of_cons in Hin as [?|Hin]; [done|].
      by apply list_elem_of_singleton in Hin. }
    destruct rest; simpl; rewrite Hstop; by rewrite (bool_decide_false _ Hn3).
Qed.

(** ** The result of a cycle *)

Lemma after_run_result (opts : Options) (env : Env) (thread : string)
    (jobs : list Job) (mark : Z) (run status : string) (s s' : State)
    (r : ProcessingResult) :
  after_run opts env thread jobs mark run status s = (s', Returned r) →
  r = {| pr_threadId := thread;
         messagesProcessed := length jobs;
         processedJobIds := filter (λ id, Js.truthy id) (map job_id jobs);
         pr_runId := run;
         pr_status := status |}.
Proof.
  unfold after_run. intros H.
  apply bind_Returned in H as ([] & s1 & _ & H).
  apply bind_Returned in H as ([] & s2 & _ & H).
  apply bind_Returned in H as ([] & s3 & _ & H).
  apply bind_Returned in H as (newer & s4 & _ & H).
  apply bind_Returned in H as ([] & s5 & _ & H).
  by injection H as _ <-.
Qed.

Lemma processMessages_try_result (opts : Options) (env : Env) (thread : string)
    (jobs : list Job) (s s' : State) (r : ProcessingResult) :
  processMessages_try opts env thread jobs s = (s', Returned r) →
  r = {| pr_threadId := thread;
         messagesProcessed := length jobs;
         processedJobIds :=
           filter (λ id, Js.truthy id) (map job_id (Js.sort by_timestamp jobs));
         pr_runId := created_run env;
         pr_status := "completed" |}.
Proof.
  unfold processMessages_try.
  pose proof (sort_perm by_timestamp jobs) as Hperm.
  destruct (Js.sort by_timestamp jobs) as [|first rest] eqn:Hsort; [done|].
  intros H.
  apply bind_Returned in H as ([] & s1 & _ & H).
  apply bind_Returned in H as ([] & s2 & _ & H).
  apply bind_Returned in H as (run & s3 & Hrun & H).
  apply bind_Returned in H as (status & s4 & Hwait & H).
  apply after_run_result in H as ->.
  unfold createRun in Hrun. apply bind_Returned in Hrun as ([] & s2' & _ & Hrun).
  injection Hrun as _ <-.
  unfold await_run in Hwait.
  destruct (waitForRunCompletion opts env thread (created_run env) s3) as [s3' o] eqn:Hloop.
  injection Hwait as _ ->.
  pose proof (poll_loop_returns_completed opts thread (created_run env) (clock s3)
                (polls env) "in_progress" initialDelay s3 status) as Hdone.
  unfold waitForRunCompletion in Hloop. rewrite Hloop in Hdone.
  rewrite (Hdone eq_refl). f_equal. by rewrite <- Hperm.
Qed.

(** X2.  The result [processMessages] returns: the thread, as many processed
    messages as the batch has jobs, the non-empty job ids of the batch in
    ascending timestamp order, the id of the run it created, and the status
    "completed", the only status a cycle returns with. *)
Theorem X2_processing_result (opts : Options) (env : Env) (thread : string)
    (jobs : list Job) (s : State) (r : ProcessingResult) :
  snd (processMessages opts env thread jobs s) = Returned r →
  r = {| pr_threadId := thread;
         messagesProcessed := length jobs;
         processedJobIds :=
           filter (λ id, Js.truthy id) (map job_id (Js.sort by_timestamp jobs));
         pr_runId := created_run env;
         pr_status := "completed" |}.
Proof.
  intros Hret.
  destruct (strs (shared s) !! lock_key opts thread) as [holder|] eqn:Hlock.
  { by rewrite (processMessages_contended _ _ _ _ _ _ Hlock) in Hret. }
  rewrite processMessages_acquired in Hret by done. unfold try_finally in Hret.
  destruct (processMessages_try _ _ _ _ _) as [s1 o] eqn:Htry.
  destruct o as [r'| |]; try done. injection Hret as ->.
  by eapply processMessages_try_result.
Qed.

Lemma X2_witness :
  {| pr_threadId := "T1";
     messagesProcessed := 3;
     processedJobIds := map job_id [Sample.job_A; Sample.job_B; Sample.job_C];
     pr_runId := "run_1";
     pr_status := "completed" |}
  = {| pr_threadId := "T1";
       messagesProcessed := length [Sample.job_C; Sample.job_A; Sample.job_B];
       processedJobIds :=
         filter (λ id, Js.truthy id)
           (map job_id (Js.sort by_timestamp [Sample.job_C; Sample.job_A; Sample.job_B]));
       pr_runId := created_run Sample.calm;
       pr_status := "completed" |}.
Proof.
  apply (X2_processing_result Sample.opts Sample.calm "T1"
           [Sample.job_C; Sample.job_A; Sample.job_B] Sample.after_ABC).
  vm_compute. reflexivity.
Defined.

(** ** The lock helpers of [redis-helper.ts] together *)

Lemma state_eta (s : State) :
  {| shared := {| queue := queue (shared s); sets := sets (shared s);
                  strs := strs (shared s) |};
     clock := clock s; trace := trace s |} = s.
Proof. by destruct s as [[] ? ?]. Qed.

(** X3.  [acquireLock] succeeds exactly on a key that [lockExists] reports
    absent.  Once a value is acquired on a free key, a second [acquireLock]
    fails and changes nothing, [releaseLock] with another value answers
    [false] and changes nothing, and [releaseLock] with the acquired value
    answers [true] and leaves the store exactly as it was before the
    acquisition. *)
Theorem X3_lock_helpers (key value : string) (s : State) :
  snd (acquireLock key value s) = Returned (bool_decide (stored key s = None)) ∧
  snd (lockExists key s) = Returned (bool_decide (stored key s ≠ None)) ∧
  (stored key s = None →
     let held := fst (acquireLock key value s) in
     stored key held = Some value ∧
     (∀ other, acquireLock key other held = (held, Returned false)) ∧
     (∀ other, other ≠ value → releaseLock key other held = (held, Returned false)) ∧
     releaseLock key value held = (s, Returned true)).
Proof.
  unfold acquireLock, lockExists, Redis.set_nx, stored.
  rewrite bind_unfold, gets_unfold, mret_unfold. unfold Redis.exists_.
  split_and!.
  - destruct (strs (shared s) !! key); simpl; by rewrite ?bool_decide_true, ?bool_decide_false.
  - by destruct (strs (shared s) !! key) as [holder|].
  - intros Hfree. rewrite Hfree. cbn [fst].
    assert (strs (shared (with_strs (insert key value) s)) !! key = Some value) as Hheld.
    { simpl. apply lookup_insert_eq. }
    assert (Redis.del key (with_strs (insert key value) s) = s) as Hback.
    { unfold Redis.del, with_strs. simpl.
      rewrite delete_insert_eq, delete_id by done. apply state_eta. }
    set (held := with_strs (insert key value) s) in *. clearbody held.
    split_and!.
    + done.
    + intros other. by rewrite Hheld.
    + intros other Hother. unfold releaseLock.
      rewrite bind_unfold, gets_unfold. unfold Redis.get. rewrite Hheld.
      by rewrite decide_False by congruence.
    + unfold releaseLock. rewrite bind_unfold, gets_unfold. unfold Redis.get.
      rewrite Hheld, decide_True by done.
      rewrite bind_unfold. unfold modify. by rewrite mret_unfold, Hback.
Qed.

(** ** Job ids never collide *)

Lemma lacks_append (c : ascii) (a b : string) : lacks c (a +:+ b) ↔ lacks c a ∧ lacks c b.
Proof.
  induction a as [|c' a IH]; [simpl; tauto|].
  rewrite append_cons. simpl. rewrite IH. tauto.
Qed.

Lemma is_digits_lacks_underscore (d : string) : is_digits d → lacks "_"%char d.
Proof.
  induction d as [|c d IH]; simpl; [done|]. intros [Hc Hd]. split; [|auto].
  intros ->. unfold is_digit in Hc. vm_compute in Hc. destruct Hc as [_ Hc]. by apply Hc.
Qed.

Lemma toString_lacks_underscore (t : Z) : lacks "_"%char (Js.toString t).
Proof.
  assert (∀ p, lacks "_"%char (pretty (N.pos p))) as Hpos.
  { intros p. unfold pretty, pretty_N. rewrite decide_False by done.
    destruct (pretty_N_go_numeral (N.pos p) "") as (d & Hd & Hdigits & _).
    rewrite Hd, append_nil_r. by apply is_digits_lacks_underscore. }
  unfold Js.toString, pretty, pretty_Z. destruct t as [|p|p].
  - simpl. by split.
  - apply Hpos.
  - apply lacks_append. split; [simpl; by split|apply Hpos].
Qed.

(** A string is cut in one way only at its last underscore. *)
Lemma split_at_last_underscore (a a' d d' : string) :
  lacks "_"%char d → lacks "_"%char d' →
  a +:+ String "_" d = a' +:+ String "_" d' → a = a' ∧ d = d'.
Proof.
  intros Hd Hd'. revert a'. induction a as [|c a IH]; intros [|c' a'].
  - by intros [= ->].
  - rewrite append_cons. intros [= <- ->].
    apply lacks_append in Hd as [_ [Hd _]]. done.
  - rewrite append_cons. intros [= -> <-].
    apply lacks_append in Hd' as [_ [Hd' _]]. done.
  - rewrite !append_cons. intros [= -> H]. by destruct (IH _ H) as [-> ->].
Qed.

Lemma jobId_of_inj (thread1 thread2 : string) (ts1 ts2 : Z) :
  jobId_of thread1 ts1 = jobId_of thread2 ts2 → thread1 = thread2 ∧ ts1 = ts2.
Proof.
  unfold jobId_of. intros H.
  apply append_inj_prefix in H.
  apply split_at_last_underscore in H as [-> H]; try apply toString_lacks_underscore.
  split; [done|]. by apply (inj pretty) in H.
Qed.

(** X4.  Job ids never collide: two ids built by [addMessageToThread] are
    equal only for the same thread and the same timestamp, whatever the
    thread ids contain. *)
Theorem X4_job_id_injective (thread1 thread2 : string) (ts1 ts2 : Z) :
  jobId_of thread1 ts1 = jobId_of thread2 ts2 → thread1 = thread2 ∧ ts1 = ts2.
Proof. apply jobId_of_inj. Qed.

Lemma X4_witness : "a_1" = "a_1" ∧ 23 = 23.
Proof. by apply (X4_job_id_injective "a_1" "a_1" 23 23). Defined.

(** ** The footprint of a cycle on the queue and the index *)

Section Footprint.
Context (R : State → State → Prop) `{!PreOrder R}.

Lemma relates_ret {A} (a : A) : relates R (mret a : M A).
Proof. intros s. simpl. reflexivity. Qed.

Lemma relates_throw {A} (e : Error) : relates R (throw e : M A).
Proof. intros s. simpl. reflexivity. Qed.

Lemma relates_gets {A} (f : State → A) : relates R (gets f).
Proof. intros s. simpl. reflexivity. Qed.

Lemma relates_attempt (env : Env) (c : Call) (f : State → State) :
  (∀ s, R s (f s)) → relates R (attempt env c f).
Proof. intros Hf s. unfold attempt. destruct (fails env c); simpl; [reflexivity|done]. Qed.

Lemma relates_call (env : Env) (c : Call) (ev : Event) :
  (∀ s, R s (log ev s)) → relates R (call env c ev).
Proof. intros Hf s. unfold call. by destruct (fails env c). Qed.

Lemma relates_bind {A B} (m : M A) (k : A → M B) :
  relates R m → (∀ a, relates R (k a)) → relates R (m ≫= k).
Proof.
  intros Hm Hk s. rewrite bind_unfold. specialize (Hm s).
  destruct (m s) as [s1 [a|e|]]; simpl in *; try done.
  etransitivity; [exact Hm|apply Hk].
Qed.

Lemma relates_promise_all (ms : list (M unit)) :
  Forall (relates R) ms → relates R (promise_all ms).
Proof.
  induction 1 as [|m ms Hm _ IH]; [apply relates_ret|].
  intros s. simpl. specialize (Hm s).
  destruct (m s) as [s1 [[]|e|]]; simpl in *; try done;
    (etransitivity; [exact Hm|apply IH]).
Qed.

Lemma relates_try_finally {A} (body : M A) (fin : State → State) :
  relates R body → (∀ s, R s (fin s)) → relates R (try_finally body fin).
Proof.
  intros Hbody Hfin s. unfold try_finally. specialize (Hbody s).
  destruct (body s) as [s1 [a|e|]]; simpl in *; try done;
    (etransitivity; [exact Hbody|apply Hfin]).
Qed.

(** What a cycle on [jobs] may do to the stores: change the Redis strings,
    the clock and the trace, delete jobs of the batch from the queue, remove
    ids of the batch from the thread's index, and let the other workers
    act. *)
Lemma processMessages_footprint (opts : Options) (env : Env) (thread : string)
    (jobs : list Job) :
  (∀ s s', queue (shared s') = queue (shared s) →
           sets (shared s') = sets (shared s) → R s s') →
  (∀ s id, id ∈ map job_id jobs → R s (with_queue (delete id) s)) →
  (∀ s members, (∀ id, id ∈ members → id ∈ map job_id jobs) →
                R s (Redis.sRem (threadJobs_key opts thread) members s)) →
  (∀ s, R s (with_shared (during_run env) s)) →
  relates R (processMessages opts env thread jobs).
Proof.
  intros Hsame Hdel Hsrem Hothers.
  assert (∀ j, j ∈ Js.sort by_timestamp jobs → job_id j ∈ map job_id jobs) as Hids.
  { intros j Hj. apply list_elem_of_fmap. exists j. by rewrite sort_elem_of in Hj. }
  unfold processMessages.
  apply relates_bind; [apply relates_gets|intros now].
  apply relates_bind.
  { intros s. unfold Redis.set_nx. destruct (strs (shared s) !! _); simpl;
      [reflexivity|by apply Hsame]. }
  intros [|]; simpl; [|apply relates_throw].
  apply relates_try_finally.
  2:{ intros s. apply Hsame; by destruct (release_own_lock_stores
                                            (lock_key opts thread) (Js.toString now) s). }
  unfold processMessages_try.
  destruct (Js.sort by_timestamp jobs) as [|first rest] eqn:Hsort; [apply relates_throw|].
  apply relates_bind; [apply relates_attempt; intros s; by apply Hsame|intros _].
  apply relates_bind; [apply relates_call; intros s; by apply Hsame|intros _].
  apply relates_bind; [|intros run].
  { apply relates_bind; [apply relates_call; intros s; by apply Hsame|intros _].
    apply relates_ret. }
  apply relates_bind; [|intros status].
  { intros s. unfold await_run, waitForRunCompletion.
    pose proof (poll_loop_shared opts thread run (clock s) (polls env) "in_progress"
                  initialDelay s) as Hsh.
    destruct (poll_loop _ _ _ _ _ _ _ s) as [s1 o]. simpl in *.
    etransitivity; [|apply Hothers]. apply Hsame; by rewrite Hsh. }
  unfold after_run.
  apply relates_bind; [|intros _].
  { apply relates_promise_all, Forall_forall. intros m Hm.
    apply list_elem_of_fmap in Hm as (job & -> & Hjob).
    apply relates_attempt. intros s. by apply Hdel, Hids. }
  apply relates_bind; [|intros _].
  { unfold removeJobsFromThreadIndex. case_match eqn:Hf; [apply relates_ret|].
    apply relates_attempt. intros s0. apply Hsrem. intros id Hid. rewrite <- Hf in Hid.
    apply list_elem_of_filter in Hid as [_ Hid].
    apply list_elem_of_fmap in Hid as (j & -> & Hj). by apply Hids. }
  apply relates_bind; [apply relates_attempt; intros s; reflexivity|intros _].
  apply relates_bind; [apply relates_gets|intros newer].
  apply relates_bind; [|intros _; apply relates_ret].
  destruct newer; [apply relates_ret|]. apply relates_call. intros s. by apply Hsame.
Qed.

(** The same for a wake-up of the worker, whose batch is the live jobs of
    the thread. *)
Lemma worker_footprint (opts : Options) (env : Env) (job : Job) (s : State) :
  let thread := threadId (job_data job) in
  let jobs := getJobsByThreadId opts thread s in
  (∀ s s', queue (shared s') = queue (shared s) →
           sets (shared s') = sets (shared s) → R s s') →
  (∀ s id, id ∈ map job_id jobs → R s (with_queue (delete id) s)) →
  (∀ s members, (∀ id, id ∈ members → id ∈ map job_id jobs) →
                R s (Redis.sRem (threadJobs_key opts thread) members s)) →
  (∀ s, R s (with_shared (during_run env) s)) →
  R s (fst (worker opts env job s)).
Proof.
  intros thread jobs Hsame Hdel Hsrem Hothers.
  unfold worker. rewrite bind_unfold, gets_unfold. fold thread. fold jobs.
  destruct jobs as [|j0 jobs0] eqn:Hjobs; [simpl; reflexivity|]. rewrite <- Hjobs in *.
  assert (relates R (processMessages opts env thread (Js.sort by_timestamp jobs)))
    as Hcycle.
  { apply processMessages_footprint; try done.
    - intros s0 id Hid. apply Hdel.
      apply list_elem_of_fmap in Hid as (j & -> & Hj). rewrite sort_elem_of in Hj.
      by apply list_elem_of_fmap_2.
    - intros s0 members Hm. apply Hsrem. intros id Hid.
      apply Hm, list_elem_of_fmap in Hid as (j & -> & Hj). rewrite sort_elem_of in Hj.
      by apply list_elem_of_fmap_2. }
  match goal with
  | |- R _ (fst (?m _)) => assert (relates R m) as Hrest; [|apply Hrest]
  end.
  apply relates_bind; [apply relates_gets|intros isLocked].
  case_bool_decide.
  - apply relates_bind; [apply relates_gets|intros now].
    apply relates_bind; [|intros _; apply relates_ret].
    apply relates_call. intros s1. by apply Hsame.
  - destruct (Js.sort by_timestamp jobs) as [|oldest more] eqn:Hsort;
      [apply relates_throw|].
    case_bool_decide; [apply relates_ret|].
    apply relates_bind; [exact Hcycle|intros r; apply relates_ret].
Qed.

End Footprint.

(** ** Facts about the stores *)

Lemma threadJobs_key_inj (opts : Options) (t t' : string) :
  threadJobs_key opts t = threadJobs_key opts t' → t = t'.
Proof.
  unfold threadJobs_key. intros H.
  by do 2 apply append_inj_prefix in H.
Qed.

Lemma index_of_sRem (opts : Options) (thread : string) (members : list string)
    (s : State) :
  index_of opts thread (Redis.sRem (threadJobs_key opts thread) members s)
  = filter (λ x, x ∉ members) (index_of opts thread s).
Proof.
  unfold index_of, Redis.sMembers, Redis.sRem. simpl.
  destruct (sets (shared s) !! threadJobs_key opts thread) as [l|] eqn:Hl; simpl.
  - destruct (filter _ l) as [|x l'] eqn:Hf.
    + by rewrite lookup_delete_eq.
    + by rewrite lookup_insert_eq.
  - by rewrite Hl.
Qed.

Lemma index_of_sRem_other (opts : Options) (thread thread' : string)
    (members : list string) (s : State) :
  thread' ≠ thread →
  index_of opts thread' (Redis.sRem (threadJobs_key opts thread) members s)
  = index_of opts thread' s.
Proof.
  intros Hne.
  assert (threadJobs_key opts thread ≠ threadJobs_key opts thread') as Hkey.
  { intros H. by apply threadJobs_key_inj in H. }
  unfold index_of, Redis.sMembers, Redis.sRem. simpl.
  destruct (sets (shared s) !! threadJobs_key opts thread) as [l|] eqn:Hl; [|done].
  destruct (filter _ l) as [|x l'].
  - by rewrite lookup_delete_ne.
  - by rewrite lookup_insert_ne.
Qed.

Lemma index_of_sAdd (opts : Options) (thread id : string) (s : State) :
  index_of opts thread (Redis.sAdd (threadJobs_key opts thread) id s)
  = if decide (id ∈ index_of opts thread s) then index_of opts thread s
    else index_of opts thread s ++ [id].
Proof.
  unfold index_of, Redis.sMembers, Redis.sAdd. simpl.
  destruct (sets (shared s) !! threadJobs_key opts thread) as [l|] eqn:Hl; simpl.
  - case_decide; [by rewrite Hl|by rewrite lookup_insert_eq].
  - by rewrite lookup_insert_eq.
Qed.

Lemma index_of_sAdd_other (opts : Options) (thread thread' id : string) (s : State) :
  thread' ≠ thread →
  index_of opts thread' (Redis.sAdd (threadJobs_key opts thread) id s)
  = index_of opts thread' s.
Proof.
  intros Hne.
  assert (threadJobs_key opts thread ≠ threadJobs_key opts thread') as Hkey.
  { intros H. by apply threadJobs_key_inj in H. }
  unfold index_of, Redis.sMembers, Redis.sAdd. simpl.
  destruct (sets (shared s) !! threadJobs_key opts thread) as [l|] eqn:Hl.
  - case_decide; [done|by rewrite lookup_insert_ne].
  - by rewrite lookup_insert_ne.
Qed.

Lemma index_of_ext (opts : Options) (thread : string) (s s' : State) :
  sets (shared s') = sets (shared s) → index_of opts thread s' = index_of opts thread s.
Proof. intros H. unfold index_of, Redis.sMembers. by rewrite H. Qed.

Lemma well_formed_ext (opts : Options) (s s' : State) :
  queue (shared s') = queue (shared s) →
  sets (shared s') = sets (shared s) →
  well_formed opts s → well_formed opts s'.
Proof.
  intros Hq Hs (Hidx & Hnd & Hjobs). split_and!.
  - intros thread id. rewrite (index_of_ext opts thread s s' Hs). apply Hidx.
  - intros thread. rewrite (index_of_ext opts thread s s' Hs). apply Hnd.
  - intros thread ts d. rewrite Hq. apply Hjobs.
Qed.

Lemma well_formed_delete (opts : Options) (id : string) (s : State) :
  well_formed opts s → well_formed opts (with_queue (delete id) s).
Proof.
  intros (Hidx & Hnd & Hjobs). split_and!; [done|done|].
  intros thread ts d. simpl. intros Hd.
  apply lookup_delete_Some in Hd as [_ Hd]. by apply Hjobs.
Qed.

Lemma well_formed_sRem (opts : Options) (thread : string) (members : list string)
    (s : State) :
  well_formed opts s → well_formed opts (Redis.sRem (threadJobs_key opts thread) members s).
Proof.
  intros (Hidx & Hnd & Hjobs).
  assert (∀ thread',
            ∃ P : string → Prop, ∃ _ : ∀ x, Decision (P x),
              index_of opts thread' (Redis.sRem (threadJobs_key opts thread) members s)
              = filter P (index_of opts thread' s)) as Hfilter.
  { intros thread'. destruct (decide (thread' = thread)) as [->|Hne].
    - exists (λ x, x ∉ members), _. apply index_of_sRem.
    - exists (λ _, True), _. rewrite index_of_sRem_other by done.
      symmetry. induction (index_of opts thread' s) as [|x l IH]; [done|].
      by rewrite filter_cons_True, IH. }
  split_and!.
  - intros thread' id. destruct (Hfilter thread') as (P & HP & ->).
    intros Hid. apply list_elem_of_filter in Hid as [_ Hid]. by apply Hidx.
  - intros thread'. destruct (Hfilter thread') as (P & HP & ->).
    apply NoDup_filter, Hnd.
  - done.
Qed.

(** ** The shape of the stores is kept *)

#[local] Instance implication_preorder (P : State → Prop) :
  PreOrder (λ a b : State, P a → P b).
Proof. split; [by intros a|]. intros a b c Hab Hbc Ha. auto. Qed.

Lemma addMessageToThread_unfold (opts : Options) (thread msg : string)
    (instr : option string) (s : State) :
  addMessageToThread opts thread msg instr s
  = (Redis.sAdd (threadJobs_key opts thread) (jobId_of thread (clock s))
       (queue_add (jobId_of thread (clock s))
          {| threadId := thread; message := msg;
             timestamp := clock s; instructions := instr |} s),
     Returned (jobId_of thread (clock s))).
Proof. reflexivity. Qed.

Lemma well_formed_add (opts : Options) (thread msg : string) (instr : option string)
    (s : State) :
  well_formed opts s →
  well_formed opts (fst (addMessageToThread opts thread msg instr s)).
Proof.
  intros (Hidx & Hnd & Hjobs). rewrite addMessageToThread_unfold. cbn [fst].
  set (id := jobId_of thread (clock s)).
  set (data := {| threadId := thread; message := msg;
                  timestamp := clock s; instructions := instr |}).
  assert (∀ thread', index_of opts thread' (queue_add id data s) = index_of opts thread' s)
    as Hsame by (intros; by apply index_of_ext).
  split_and!.
  - intros thread' id'. destruct (decide (thread' = thread)) as [->|Hne].
    + rewrite index_of_sAdd, Hsame. case_decide; [apply Hidx|].
      intros Hin. apply elem_of_app in Hin as [Hin|Hin]; [by apply Hidx|].
      apply list_elem_of_singleton in Hin as ->. by exists (clock s).
    + rewrite index_of_sAdd_other, Hsame by done. apply Hidx.
  - intros thread'. destruct (decide (thread' = thread)) as [->|Hne].
    + rewrite index_of_sAdd, Hsame. case_decide; [apply Hnd|].
      apply NoDup_app. split_and!; [apply Hnd| |apply NoDup_singleton].
      intros x Hx Hx'. apply list_elem_of_singleton in Hx' as ->. done.
    + rewrite index_of_sAdd_other, Hsame by done. apply Hnd.
  - intros thread' ts d. simpl.
    destruct (queue (shared s) !! id) as [d0|] eqn:Hold; [apply Hjobs|].
    destruct (decide (id = jobId_of thread' ts)) as [Heq|Hne].
    + rewrite <- Heq, lookup_insert_eq. intros [= <-].
      apply jobId_of_inj in Heq as [<- <-]. done.
    + rewrite lookup_insert_ne by done. apply Hjobs.
Qed.

Lemma well_formed_worker (opts : Options) (env : Env) (job : Job) (s : State) :
  (∀ s0, well_formed opts s0 → well_formed opts (with_shared (during_run env) s0)) →
  well_formed opts s →
  well_formed opts (fst (worker opts env job s)).
Proof.
  intros Hothers.
  apply (worker_footprint (λ a b, well_formed opts a → well_formed opts b)).
  - intros a b. by apply well_formed_ext.
  - intros a id _. apply well_formed_delete.
  - intros a members _. apply well_formed_sRem.
  - exact Hothers.
Qed.

(** X5.  The stores keep the shape [addMessageToThread] gives them: every id
    indexed for a thread is an id built for that thread, indexed once, and
    the job stored under it carries that thread and the timestamp of the id.
    This holds of empty stores and is kept by [addMessageToThread] and, as
    long as the other workers keep it, by every wake-up of the worker. *)
Theorem X5_stores_keep_their_shape (opts : Options) :
  (∀ s, queue (shared s) = ∅ → sets (shared s) = ∅ → well_formed opts s) ∧
  (∀ thread msg instr s,
     well_formed opts s →
     well_formed opts (fst (addMessageToThread opts thread msg instr s))) ∧
  (∀ env job s,
     (∀ s0, well_formed opts s0 → well_formed opts (with_shared (during_run env) s0)) →
     well_formed opts s →
     well_formed opts (fst (worker opts env job s))).
Proof.
  split_and!.
  - intros s Hq Hs. unfold well_formed, index_of, Redis.sMembers. rewrite Hq, Hs.
    split_and!.
    + intros thread id. rewrite lookup_empty. simpl. by intros ?%elem_of_nil.
    + intros thread. rewrite lookup_empty. apply NoDup_nil_2.
    + intros thread ts d. by rewrite lookup_empty.
  - intros. by apply well_formed_add.
  - intros. by apply well_formed_worker.
Qed.

(** ** What a well-formed index lists *)

Lemma listing_of_well_formed (opts : Options) (thread : string) (s : State) (j : Job) :
  well_formed opts s →
  j ∈ getJobsByThreadId opts thread s →
  threadId (job_data j) = thread ∧
  job_id j = jobId_of thread (timestamp (job_data j)).
Proof.
  intros (Hidx & _ & Hjobs) Hj.
  apply elem_of_getJobsByThreadId in Hj as [Hid Hq].
  destruct (Hidx thread (job_id j) Hid) as [ts Hts].
  rewrite Hts in Hq. destruct (Hjobs _ _ _ Hq) as [? <-]. done.
Qed.

Lemma listing_timestamps_NoDup (opts : Options) (thread : string) (s : State) :
  well_formed opts s →
  NoDup (map (λ j, timestamp (job_data j)) (getJobsByThreadId opts thread s)).
Proof.
  intros Hwf. pose proof Hwf as (Hidx & Hnd & Hjobs).
  rewrite getJobsByThreadId_spec. fold (index_of opts thread s).
  specialize (Hnd thread).
  assert (∀ id, id ∈ index_of opts thread s → ∃ ts, id = jobId_of thread ts) as Hids
    by (intros; by eapply Hidx).
  induction Hnd as [|id l Hnotin Hnd IH]; [constructor|].
  simpl. unfold getJob at 1.
  destruct (queue (shared s) !! id) as [d|] eqn:Hd; simpl;
    [|apply IH; intros; apply Hids; by right].
  constructor; [|apply IH; intros; apply Hids; by right].
  intros Hin. apply list_elem_of_fmap in Hin as (j' & Hts & Hj').
  apply list_elem_of_omap in Hj' as (id' & Hid' & Hget).
  unfold getJob in Hget. destruct (queue (shared s) !! id') as [d'|] eqn:Hd'; [|done].
  injection Hget as <-. simpl in Hts.
  destruct (Hids id (list_elem_of_here _ _)) as [ts Hid].
  destruct (Hids id' (list_elem_of_further _ _ _ Hid')) as [ts' Hid''].
  subst id id'.
  destruct (Hjobs _ _ _ Hd) as [_ <-]. destruct (Hjobs _ _ _ Hd') as [_ <-].
  rewrite Hts in Hnotin. done.
Qed.

Lemma sorted_strict_head (first : Job) (rest : list Job) :
  StronglySorted ts_le (first :: rest) →
  NoDup (map (λ j, timestamp (job_data j)) (first :: rest)) →
  ∀ j, j ∈ rest → timestamp (job_data first) < timestamp (job_data j).
Proof.
  intros Hsorted Hnd j Hj.
  apply StronglySorted_inv in Hsorted as [_ Hall].
  eapply Forall_forall in Hall; [|exact Hj]. unfold ts_le in Hall.
  simpl in Hnd. apply NoDup_cons in Hnd as [Hnotin _].
  assert (timestamp (job_data first) ≠ timestamp (job_data j)); [|lia].
  intros Heq. apply Hnotin. rewrite Heq. by apply (list_elem_of_fmap_2 (λ j, timestamp (job_data j))).
Qed.

Lemma Sample_after_ABC_well_formed : well_formed Sample.opts Sample.after_ABC.
Proof.
  assert (∀ ms s, well_formed Sample.opts s → well_formed Sample.opts (advance ms s))
    as Hadv by (intros ms s; by apply well_formed_ext).
  unfold Sample.after_ABC. apply Hadv.
  apply well_formed_add, Hadv, well_formed_add, Hadv, well_formed_add.
  unfold well_formed, index_of, Redis.sMembers. simpl. split_and!.
  - intros thread id. rewrite lookup_empty. simpl. by intros ?%elem_of_nil.
  - intros thread. rewrite lookup_empty. apply NoDup_nil_2.
  - intros thread ts d. by rewrite lookup_empty.
Qed.

(** X6.  In well-formed stores, the jobs listed for a thread are jobs of that
    thread, each stored under the id of its own timestamp, and no two of them
    share a timestamp: the sorted listing has one strictly oldest job, so the
    trigger of a batch is never ambiguous. *)
Theorem X6_listing_of_a_thread (opts : Options) (thread : string) (s : State) :
  well_formed opts s →
  (∀ j, j ∈ getJobsByThreadId opts thread s →
        threadId (job_data j) = thread ∧
        job_id j = jobId_of thread (timestamp (job_data j))) ∧
  NoDup (map (λ j, timestamp (job_data j)) (getJobsByThreadId opts thread s)) ∧
  (∀ oldest rest,
     Js.sort by_timestamp (getJobsByThreadId opts thread s) = oldest :: rest →
     ∀ j, j ∈ rest → timestamp (job_data oldest) < timestamp (job_data j)).
Proof.
  intros Hwf. split_and!.
  - intros j. by apply listing_of_well_formed.
  - by apply listing_timestamps_NoDup.
  - intros oldest rest Hsort. apply sorted_strict_head.
    + rewrite <- Hsort. apply sort_sorted.
    + rewrite <- Hsort.
      pose proof (listing_timestamps_NoDup opts thread s Hwf) as Hnd.
      eapply NoDup_Permutation_proper; [|exact Hnd].
      apply (fmap_Permutation (λ j, timestamp (job_data j))), sort_perm.
Qed.

Lemma X6_witness :
  NoDup (map (λ j, timestamp (job_data j))
           (getJobsByThreadId Sample.opts "T1" Sample.after_ABC)).
Proof.
  apply (X6_listing_of_a_thread Sample.opts "T1" Sample.after_ABC).
  apply Sample_after_ABC_well_formed.
Defined.

(** ** Threads do not interfere *)

Lemma fetch_unchanged (s s' : State) (ids : list string) :
  (∀ id, id ∈ ids → queue (shared s') !! id = queue (shared s) !! id) →
  omap (getJob s') ids = omap (getJob s) ids.
Proof.
  induction ids as [|id ids IH]; intros Hq; [done|].
  assert (getJob s' id = getJob s id) as Hid
    by (unfold getJob; by rewrite Hq by apply list_elem_of_here).
  simpl. rewrite Hid.
  replace (list_omap string Job (getJob s') ids) with (list_omap string Job (getJob s) ids);
    [done|].
  symmetry. apply IH. intros id' Hid'. by apply Hq, list_elem_of_further.
Qed.

Lemma listing_unchanged (opts : Options) (thread : string) (s s' : State) :
  index_of opts thread s' = index_of opts thread s →
  (∀ id, id ∈ index_of opts thread s →
         queue (shared s') !! id = queue (shared s) !! id) →
  getJobsByThreadId opts thread s' = getJobsByThreadId opts thread s.
Proof.
  intros Hidx Hq. rewrite !getJobsByThreadId_spec.
  fold (index_of opts thread s') (index_of opts thread s). rewrite Hidx.
  by apply fetch_unchanged.
Qed.

#[local] Instance leaves_alone_preorder (opts : Options) (thread' : string) :
  PreOrder (leaves_alone opts thread').
Proof.
  split; [by intros a Ha|].
  intros a b c Hab Hbc Ha.
  destruct (Hab Ha) as (Hb & Hidx & Hjobs). destruct (Hbc Hb) as (Hc & Hidx' & Hjobs').
  split_and!; [done|congruence|congruence].
Qed.

Lemma leaves_alone_ext (opts : Options) (thread' : string) (a b : State) :
  queue (shared b) = queue (shared a) →
  sets (shared b) = sets (shared a) →
  leaves_alone opts thread' a b.
Proof.
  intros Hq Hs Ha. split_and!.
  - by eapply well_formed_ext.
  - by apply index_of_ext.
  - by apply getJobsByThreadId_ext.
Qed.

Lemma leaves_alone_delete (opts : Options) (thread thread' : string) (ts : Z)
    (a : State) :
  thread' ≠ thread →
  leaves_alone opts thread' a (with_queue (delete (jobId_of thread ts)) a).
Proof.
  intros Hne Ha. split_and!.
  - by apply well_formed_delete.
  - done.
  - apply listing_unchanged; [done|]. intros id Hid. simpl.
    apply lookup_delete_ne. intros <-.
    destruct Ha as (Hidx & _ & _). destruct (Hidx thread' _ Hid) as [ts' Heq].
    apply jobId_of_inj in Heq as [-> _]. done.
Qed.

Lemma leaves_alone_sRem (opts : Options) (thread thread' : string)
    (members : list string) (a : State) :
  thread' ≠ thread →
  leaves_alone opts thread' a (Redis.sRem (threadJobs_key opts thread) members a).
Proof.
  intros Hne Ha.
  pose proof (index_of_sRem_other opts thread thread' members a Hne) as Hidx.
  split_and!; [by apply well_formed_sRem|done|].
  by apply listing_unchanged.
Qed.

Lemma leaves_alone_add (opts : Options) (thread thread' msg : string)
    (instr : option string) (s : State) :
  thread' ≠ thread →
  leaves_alone opts thread' s (fst (addMessageToThread opts thread msg instr s)).
Proof.
  intros Hne Hs. split; [by apply well_formed_add|].
  rewrite addMessageToThread_unfold. cbn [fst].
  assert (index_of opts thread'
            (Redis.sAdd (threadJobs_key opts thread) (jobId_of thread (clock s))
               (queue_add (jobId_of thread (clock s))
                  {| threadId := thread; message := msg;
                     timestamp := clock s; instructions := instr |} s))
          = index_of opts thread' s) as Hidx.
  { rewrite index_of_sAdd_other by done. by apply index_of_ext. }
  split; [done|].
  apply listing_unchanged; [done|]. intros id Hid. simpl.
  destruct (queue (shared s) !! jobId_of thread (clock s)); [done|].
  apply lookup_insert_ne. intros <-.
  destruct Hs as (Hshape & _ & _). destruct (Hshape thread' _ Hid) as [ts' Heq].
  apply jobId_of_inj in Heq as [-> _]. done.
Qed.

Lemma leaves_alone_worker (opts : Options) (env : Env) (job : Job) (thread' : string)
    (s : State) :
  thread' ≠ threadId (job_data job) →
  quiet env →
  well_formed opts s →
  leaves_alone opts thread' s (fst (worker opts env job s)).
Proof.
  intros Hne Hquiet Hs.
  apply (worker_footprint (leaves_alone opts thread')).
  - intros a b. apply leaves_alone_ext.
  - intros a id Hid.
    apply list_elem_of_fmap in Hid as (j & -> & Hj).
    destruct (listing_of_well_formed opts _ s j Hs Hj) as [_ ->].
    by apply leaves_alone_delete.
  - intros a members _. by apply leaves_alone_sRem.
  - intros a. apply leaves_alone_ext; simpl; apply Hquiet.
Qed.

Lemma Sample_calm_quiet : quiet Sample.calm.
Proof. by intros sh. Qed.

(** X7.  Threads do not interfere.  In well-formed stores, a message added
    to a thread and a wake-up of the worker on a job of that thread, run
    while no other worker acts, leave the index and the listed jobs of every
    other thread as they are. *)
Theorem X7_threads_do_not_interfere (opts : Options) (thread thread' : string) :
  thread' ≠ thread →
  (∀ msg instr s,
     well_formed opts s →
     let s' := fst (addMessageToThread opts thread msg instr s) in
     index_of opts thread' s' = index_of opts thread' s ∧
     getJobsByThreadId opts thread' s' = getJobsByThreadId opts thread' s) ∧
  (∀ env job s,
     threadId (job_data job) = thread →
     quiet env →
     well_formed opts s →
     let s' := fst (worker opts env job s) in
     index_of opts thread' s' = index_of opts thread' s ∧
     getJobsByThreadId opts thread' s' = getJobsByThreadId opts thread' s).
Proof.
  intros Hne. split.
  - intros msg instr s Hs. by apply (leaves_alone_add opts thread thread' msg instr s).
  - intros env job s <- Hquiet Hs. by apply (leaves_alone_worker opts env job thread' s).
Qed.

Lemma X7_witness :
  getJobsByThreadId Sample.opts "T1"
    (fst (addMessageToThread Sample.opts "T2" "E" None Sample.after_ABC))
  = getJobsByThreadId Sample.opts "T1" Sample.after_ABC.
Proof.
  destruct (X7_threads_do_not_interfere Sample.opts "T2" "T1") as [Hadd _];
    [discriminate|].
  apply Hadd, Sample_after_ABC_well_formed.
Defined.

(** ** What a wake-up never removes *)

#[local] Instance keeps_job_preorder (id : string) (d : MessageJobData) :
  PreOrder (keeps_job id d).
Proof. split; [by intros a|]. intros a b c Hab Hbc Ha. auto. Qed.

#[local] Instance keeps_indexed_preorder (opts : Options) (thread id : string) :
  PreOrder (keeps_indexed opts thread id).
Proof. split; [by intros a|]. intros a b c Hab Hbc Ha. auto. Qed.

Lemma worker_keeps_job (opts : Options) (env : Env) (job : Job) (s : State)
    (id : string) (d : MessageJobData) :
  quiet env →
  id ∉ map job_id (getJobsByThreadId opts (threadId (job_data job)) s) →
  keeps_job id d s (fst (worker opts env job s)).
Proof.
  intros Hquiet Hid. apply (worker_footprint (keeps_job id d)).
  - intros a b Hq _. unfold keeps_job. by rewrite Hq.
  - intros a id' Hid' Ha. simpl. rewrite lookup_delete_ne; [done|]. by intros ->.
  - by intros a members _ Ha.
  - intros a Ha. simpl. by rewrite (proj1 (Hquiet _)).
Qed.

Lemma worker_keeps_indexed (opts : Options) (env : Env) (job : Job) (s : State)
    (thread id : string) :
  quiet env →
  (thread = threadId (job_data job) → queue (shared s) !! id = None) →
  keeps_indexed opts thread id s (fst (worker opts env job s)).
Proof.
  intros Hquiet Hid. apply (worker_footprint (keeps_indexed opts thread id)).
  - intros a b _ Hs. unfold keeps_indexed. by rewrite (index_of_ext opts thread a b Hs).
  - by intros a id' _ Ha.
  - intros a members Hm Ha.
    destruct (decide (thread = threadId (job_data job))) as [->|Hne].
    + rewrite index_of_sRem. apply list_elem_of_filter. split; [|done].
      intros Hin. apply Hm, list_elem_of_fmap in Hin as (j & -> & Hj).
      apply elem_of_getJobsByThreadId in Hj as [_ Hj]. rewrite Hid in Hj; done.
    + by rewrite index_of_sRem_other.
  - intros a Ha. unfold keeps_indexed, index_of, Redis.sMembers in *. simpl.
    by rewrite (proj2 (Hquiet _)).
Qed.

(** X8.  A wake-up of the worker, run while no other worker acts, deletes no
    job but the jobs it lists for the thread of the woken job, and removes
    from the indexes nothing but ids of those jobs.  So an id indexed for
    the thread whose job has left the queue in another way stays in the index
    through every wake-up. *)
Theorem X8_removals_are_confined (opts : Options) (env : Env) (job : Job) (s : State) :
  quiet env →
  let thread := threadId (job_data job) in
  let s' := fst (worker opts env job s) in
  (∀ id d, queue (shared s) !! id = Some d →
           id ∉ map job_id (getJobsByThreadId opts thread s) →
           queue (shared s') !! id = Some d) ∧
  (∀ id, id ∈ index_of opts thread s → queue (shared s) !! id = None →
         id ∈ index_of opts thread s') ∧
  (∀ thread' id, thread' ≠ thread → id ∈ index_of opts thread' s →
                 id ∈ index_of opts thread' s').
Proof.
  intros Hquiet thread s'. split_and!.
  - intros id d Hd Hid. by apply (worker_keeps_job opts env job s id d).
  - intros id Hid Hgone. by apply (worker_keeps_indexed opts env job s thread id).
  - intros thread' id Hne Hid.
    by apply (worker_keeps_indexed opts env job s thread' id).
Qed.

Lemma X8_witness :
  job_id Sample.job_B
  ∈ index_of Sample.opts "T1"
      (fst (worker Sample.opts Sample.calm Sample.job_A
              (with_queue (delete (job_id Sample.job_B)) Sample.after_ABC))).
Proof.
  destruct (X8_removals_are_confined Sample.opts Sample.calm Sample.job_A
              (with_queue (delete (job_id Sample.job_B)) Sample.after_ABC)
              Sample_calm_quiet) as (_ & Hstale & _).
  apply Hstale.
  - vm_compute. apply list_elem_of_further, list_elem_of_here.
  - vm_compute. reflexivity.
Defined.

(** ** Nothing is removed before the run is completed *)

Lemma poll_loop_never_returns (opts : Options) (thread run : string) (startTime : Z)
    (script : list PollStep) (status : string) (delay : Q) (s : State) :
  never_completed script →
  status ≠ "completed" →
  returned (snd (poll_loop opts thread run startTime script status delay s)) = false.
Proof.
  intros Hall. revert status delay s.
  induction Hall as [|p rest Hp _ IH]; intros status delay s Hst; simpl.
  - repeat case_match; try done.
    by match goal with H : bool_decide _ = true |- _ => apply bool_decide_eq_true in H end.
  - destruct (polling status); [|by case_bool_decide].
    destruct (_ >? _); [done|].
    destruct (retrieved p) as [e|checkRun] eqn:Hr; [done|].
    specialize (Hp checkRun eq_refl).
    repeat case_match; try done; by apply IH.
Qed.

Lemma relates_bind_stuck {A B} (R : State → State → Prop) (m : M A) (k : A → M B) :
  relates R m → (∀ s, returned (snd (m s)) = false) → relates R (m ≫= k).
Proof.
  intros Hm Hstuck s. rewrite bind_unfold. specialize (Hm s). specialize (Hstuck s).
  by destruct (m s) as [s1 [a|e|]].
Qed.

#[local] Instance untouched_preorder : PreOrder untouched.
Proof.
  split.
  - intros a. split_and!; [done|done|]. exists []. by rewrite app_nil_r.
  - intros a b c (Hq & Hs & evs & Htr & Hevs) (Hq' & Hs' & evs' & Htr' & Hevs').
    split_and!; [congruence|congruence|].
    exists (evs ++ evs'). split; [by rewrite Htr', Htr, app_assoc|by apply Forall_app].
Qed.

Lemma untouched_silent (a b : State) :
  queue (shared b) = queue (shared a) →
  sets (shared b) = sets (shared a) →
  trace b = trace a →
  untouched a b.
Proof. intros Hq Hs Htr. split_and!; [done|done|]. exists []. by rewrite app_nil_r. Qed.

Lemma untouched_log (ev : Event) (a : State) : ¬ is_promote ev → untouched a (log ev a).
Proof.
  intros Hev. split_and!; [done|done|]. exists [ev]. split; [done|].
  by apply Forall_singleton.
Qed.

Lemma processMessages_untouched (opts : Options) (env : Env) (thread : string)
    (jobs : list Job) :
  never_completed (polls env) →
  quiet env →
  relates untouched (processMessages opts env thread jobs).
Proof.
  intros Hnever Hquiet. unfold processMessages.
  apply relates_bind; [apply _|apply relates_gets, _|intros now].
  apply relates_bind; [apply _| |].
  { intros s. unfold Redis.set_nx. destruct (strs (shared s) !! _); simpl;
      [reflexivity|by apply untouched_silent]. }
  intros [|]; simpl; [|apply relates_throw, _].
  apply relates_try_finally; [apply _| |].
  2:{ intros s. destruct (release_own_lock_stores (lock_key opts thread)
                            (Js.toString now) s) as [Hq Hs].
      apply untouched_silent; [done|done|apply release_own_lock_trace]. }
  unfold processMessages_try.
  destruct (Js.sort by_timestamp jobs) as [|first rest]; [apply relates_throw, _|].
  apply relates_bind; [apply _| |intros _].
  { apply relates_attempt; [apply _|]. intros s. by apply untouched_silent. }
  apply relates_bind; [apply _| |intros _].
  { apply relates_call. intros s. apply untouched_log. by intros []. }
  apply relates_bind; [apply _| |intros run].
  { apply relates_bind; [apply _| |intros _; apply relates_ret, _].
    apply relates_call. intros s. apply untouched_log. by intros []. }
  apply relates_bind_stuck.
  - intros s. unfold await_run, waitForRunCompletion.
    destruct (emits_poll_loop (λ e, ¬ is_promote e) opts thread run (clock s) (polls env)
                "in_progress" initialDelay not_promote_poll s) as (evs & Hevs & HP).
    pose proof (poll_loop_shared opts thread run (clock s) (polls env) "in_progress"
                  initialDelay s) as Hsh.
    destruct (poll_loop _ _ _ _ _ _ _ s) as [s1 o]. simpl in *.
    split_and!; simpl.
    + rewrite Hsh. apply Hquiet.
    + rewrite Hsh. apply Hquiet.
    + by exists evs.
  - intros s. unfold await_run, waitForRunCompletion.
    pose proof (poll_loop_never_returns opts thread run (clock s) (polls env)
                  "in_progress" initialDelay s Hnever) as Hstuck.
    destruct (poll_loop _ _ _ _ _ _ _ s) as [s1 o]. simpl in *. by apply Hstuck.
Qed.

Lemma processMessages_not_returned (opts : Options) (env : Env) (thread : string)
    (jobs : list Job) (s : State) :
  never_completed (polls env) →
  returned (snd (processMessages opts env thread jobs s)) = false.
Proof.
  intros Hnever.
  destruct (returned (snd (processMessages opts env thread jobs s))) eqn:Hret; [|done].
  destruct (snd (processMessages opts env thread jobs s)) as [r| |] eqn:Hr; try done.
  destruct (strs (shared s) !! lock_key opts thread) as [holder|] eqn:Hlock.
  { by rewrite (processMessages_contended _ _ _ _ _ _ Hlock) in Hr. }
  rewrite processMessages_acquired in Hr by done. unfold try_finally in Hr.
  destruct (processMessages_try _ _ _ _ _) as [s1 o] eqn:Htry.
  destruct o as [r'| |]; try done.
  unfold processMessages_try in Htry.
  destruct (Js.sort by_timestamp jobs) as [|first rest]; [done|].
  apply bind_Returned in Htry as ([] & s2 & _ & Htry).
  apply bind_Returned in Htry as ([] & s3 & _ & Htry).
  apply bind_Returned in Htry as (run & s4 & _ & Htry).
  apply bind_Returned in Htry as (status & s5 & Hwait & _).
  unfold await_run, waitForRunCompletion in Hwait.
  pose proof (poll_loop_never_returns opts thread run (clock s4) (polls env)
                "in_progress" initialDelay s4 Hnever) as Hstuck.
  destruct (poll_loop _ _ _ _ _ _ _ s4) as [s4' o].
  injection Hwait as _ ->. by specialize (Hstuck ltac:(done)).
Qed.

(** X9.  Nothing is removed before the run is completed.  When no poll
    reports the run as completed and no other worker acts, a cycle of
    [processMessages] returns no result, and it leaves every job in the queue
    and every id in the indexes, and promotes nothing: the messages of the
    batch stay queued. *)
Theorem X9_no_removal_without_completion (opts : Options) (env : Env)
    (thread : string) (jobs : list Job) (s : State) :
  never_completed (polls env) →
  quiet env →
  let final := processMessages opts env thread jobs s in
  returned (snd final) = false ∧
  queue (shared (fst final)) = queue (shared s) ∧
  sets (shared (fst final)) = sets (shared s) ∧
  getJobsByThreadId opts thread (fst final) = getJobsByThreadId opts thread s ∧
  ∃ evs, trace (fst final) = trace s ++ evs ∧ Forall (λ e, ¬ is_promote e) evs.
Proof.
  intros Hnever Hquiet final.
  destruct (processMessages_untouched opts env thread jobs Hnever Hquiet s)
    as (Hq & Hs & Hevs).
  split_and!; try done.
  - by apply processMessages_not_returned.
  - by apply getJobsByThreadId_ext.
Qed.

Lemma X9_witness :
  getJobsByThreadId Sample.opts "T1"
    (fst (processMessages Sample.opts Sample.failing "T1"
            [Sample.job_A; Sample.job_B; Sample.job_C] Sample.after_ABC))
  = getJobsByThreadId Sample.opts "T1" Sample.after_ABC.
Proof.
  apply (X9_no_removal_without_completion Sample.opts Sample.failing "T1"
           [Sample.job_A; Sample.job_B; Sample.job_C] Sample.after_ABC).
  - apply Forall_singleton. intros checkRun [= <-]. discriminate.
  - intros sh. split; reflexivity.
Defined.

(** ** Submitting a message, then listing the thread *)



(** ** Two messages in the same millisecond *)

(** X11.  A second message submitted to the same thread within the same
    millisecond as another one is dropped without notice: it is given the id
    of the first, which the queue already holds and the index already lists,
    so the stores stay as the first submission left them, with the text and
    the instructions of the first message, and the id is returned as if the
    message had been queued. *)
Theorem X11_same_millisecond (opts : Options) (thread msg1 msg2 : string)
    (instr1 instr2 : option string) (s : State) :
  let s1 := fst (addMessageToThread opts thread msg1 instr1 s) in
  addMessageToThread opts thread msg2 instr2 s1
  = (s1, Returned (jobId_of thread (clock s))).
Proof.
  intros s1. subst s1. rewrite !addMessageToThread_unfold. cbn [fst].
  set (id := jobId_of thread (clock s)).
  set (data1 := {| threadId := thread; message := msg1;
                   timestamp := clock s; instructions := instr1 |}).
  set (s1 := Redis.sAdd (threadJobs_key opts thread) id (queue_add id data1 s)).
  assert (clock s1 = clock s) as Hclock by done.
  rewrite Hclock. fold id.
  set (data2 := {| threadId := thread; message := msg2;
                   timestamp := clock s; instructions := instr2 |}).
  assert (is_Some (queue (shared s1) !! id)) as [d Hd].
  { subst s1. simpl. destruct (queue (shared s) !! id) as [d|] eqn:Hold.
    - by rewrite Hold.
    - by rewrite lookup_insert_eq. }
  assert (queue_add id data2 s1 = s1) as Hadd.
  { unfold queue_add, with_queue. rewrite Hd. apply state_eta. }
  rewrite Hadd.
  assert (id ∈ index_of opts thread s1) as Hin.
  { subst s1. rewrite index_of_sAdd. case_decide; [done|].
    apply elem_of_app. right. by apply list_elem_of_singleton. }
  f_equal. unfold index_of, Redis.sMembers in Hin.
  unfold Redis.sAdd, with_sets.
  destruct (sets (shared s1) !! threadJobs_key opts thread) as [l|] eqn:Hl; simpl in Hin.
  - rewrite decide_True by done. apply state_eta.
  - by apply elem_of_nil in Hin.
Qed.

(** ** An empty batch *)

(** X12.  [processMessages] on an empty batch, with the lock free: the lock
    is taken, reading the instructions of the last job throws a [TypeError]
    before any call is made, and the lock is released, so that nothing is
    left behind. *)
Theorem X12_empty_batch (opts : Options) (env : Env) (thread : string) (s : State) :
  stored (lock_key opts thread) s = None →
  processMessages opts env thread [] s = (s, Thrown TypeError).
Proof.
  intros Hfree. rewrite processMessages_acquired by done.
  unfold try_finally, processMessages_try. simpl.
  f_equal. unfold release_own_lock, Redis.get, Redis.set. simpl.
  rewrite lookup_insert_eq, decide_True by done.
  unfold Redis.del, with_strs. simpl.
  rewrite delete_insert_eq, delete_id by done. apply state_eta.
Qed.

Lemma X12_witness :
  processMessages Sample.opts Sample.calm "T1" [] Sample.after_ABC
  = (Sample.after_ABC, Thrown TypeError).
Proof. apply X12_empty_batch. reflexivity. Defined.

(** ** The number of polls of a run *)

Lemma polls_made_app (a b : list Event) :
  polls_made (a ++ b) = (polls_made a + polls_made b)%nat.
Proof. unfold polls_made. by rewrite omap_app, length_app. Qed.

Lemma waited_step (n : nat) : waited n + 1000 <= waited (S n).
Proof.
  simpl. destruct (delay_at_range n) as [Hlo _].
  apply Qfloor_resp_le in Hlo. change (Qfloor initialDelay) with 1000 in Hlo. lia.
Qed.

Lemma waited_mono (n m : nat) : (n <= m)%nat → waited n <= waited m.
Proof.
  induction 1 as [|m _ IH]; [lia|]. pose proof (waited_step m). lia.
Qed.

Lemma waited_25 : waited 25 > maxWaitTime.
Proof. vm_compute. reflexivity. Qed.

Ltac nothing_polled := split_and!; [done|unfold polls_made; simpl; lia|done].

Lemma poll_loop_budget (opts : Options) (thread run : string) (startTime : Z)
    (script : list PollStep) (status : string) (n : nat) (s : State) :
  timely n script →
  waited n <= clock s - startTime →
  ∃ evs,
    trace (fst (poll_loop opts thread run startTime script status (delay_at n) s))
    = trace s ++ evs ∧
    (polls_made evs <= 25 - n)%nat ∧
    ((25 <= n + length script)%nat →
     snd (poll_loop opts thread run startTime script status (delay_at n) s) ≠ Pending).
Proof.
  revert status n s.
  induction script as [|p rest IH]; intros status n s Htimely Hclock.
  - exists []. rewrite app_nil_r. simpl.
    destruct (polling status); [|case_bool_decide; nothing_polled].
    destruct (Z.gtb_spec (clock s - startTime) maxWaitTime) as [Hlate|Hintime];
      [nothing_polled|].
    split_and!; [done|unfold polls_made; simpl; lia|]. intros Hlen.
    pose proof (waited_mono 25 n ltac:(lia)). pose proof waited_25. lia.
  - destruct Htimely as (Hslept & Hlat & Hrest). simpl.
    destruct (polling status);
      [|exists []; rewrite app_nil_r; case_bool_decide; nothing_polled].
    destruct (Z.gtb_spec (clock s - startTime) maxWaitTime) as [Hlate|Hintime];
      [exists []; rewrite app_nil_r; nothing_polled|].
    assert (n < 25)%nat as Hn.
    { destruct (decide (n < 25)%nat) as [|Hge]; [done|].
      pose proof (waited_mono 25 n ltac:(lia)). pose proof waited_25. lia. }
    assert (∀ st evs0 s',
              trace s' = trace s ++ EvSleep (clock s) (delay_at n)
                                 :: EvRetrieve thread run :: evs0 →
              polls_made evs0 = 0%nat →
              clock s' = clock s + slept p + latency p →
              ∃ evs,
                trace (fst (poll_loop opts thread run startTime rest st
                              (nextDelay (delay_at n)) s'))
                = trace s ++ evs ∧
                (polls_made evs <= 25 - n)%nat ∧
                ((25 <= n + S (length rest))%nat →
                 snd (poll_loop opts thread run startTime rest st
                        (nextDelay (delay_at n)) s') ≠ Pending)) as Hnext.
    { intros st evs0 s' Htr Hnone Hclock'.
      destruct (IH st (S n) s' Hrest) as (evs & Hevs & Hcount & Hsettled).
      { simpl. lia. }
      exists (EvSleep (clock s) (delay_at n) :: EvRetrieve thread run :: evs0 ++ evs).
      split_and!.
      - simpl in Hevs. rewrite Hevs, Htr. by rewrite <- app_assoc.
      - change (EvSleep (clock s) (delay_at n) :: EvRetrieve thread run :: evs0 ++ evs)
          with ([EvSleep (clock s) (delay_at n); EvRetrieve thread run] ++ evs0 ++ evs).
        rewrite !polls_made_app, Hnone.
        change (polls_made [EvSleep (clock s) (delay_at n); EvRetrieve thread run])
          with 1%nat.
        lia.
      - intros Hlen. apply Hsettled. lia. }
    assert (∀ evs0 s' (o : Outcome string),
              trace s' = trace s ++ EvSleep (clock s) (delay_at n)
                                 :: EvRetrieve thread run :: evs0 →
              polls_made evs0 = 0%nat →
              o ≠ Pending →
              ∃ evs,
                trace (fst (s', o)) = trace s ++ evs ∧
                (polls_made evs <= 25 - n)%nat ∧
                ((25 <= n + S (length rest))%nat → snd (s', o) ≠ Pending)) as Hstop.
    { intros evs0 s' o Htr Hnone Ho.
      exists (EvSleep (clock s) (delay_at n) :: EvRetrieve thread run :: evs0).
      split_and!; [done| |done].
      change (EvSleep (clock s) (delay_at n) :: EvRetrieve thread run :: evs0)
        with ([EvSleep (clock s) (delay_at n); EvRetrieve thread run] ++ evs0).
      rewrite polls_made_app, Hnone.
      change (polls_made [EvSleep (clock s) (delay_at n); EvRetrieve thread run])
        with 1%nat.
      lia. }
    destruct (retrieved p) as [e|checkRun].
    { eapply Hstop; [|shelve|done]. unfold retrieve, sleep, advance, log. simpl.
      rewrite <- app_assoc. reflexivity. }
    repeat case_match;
      first [ eapply Hnext; [| shelve |]
            | eapply Hstop; [| shelve | done] ];
      try (unfold retrieve, sleep, advance, log; simpl;
           rewrite <- ?app_assoc; simpl; first [ reflexivity | lia ]).
    Unshelve. all: reflexivity.
Qed.

(** X13.  With timely timers, [waitForRunCompletion] polls the run at most 25
    times: by then the 25 sleeps have lasted more than the 300000 ms of the
    ceiling.  So 25 recorded polls are enough for the wait to settle. *)
Theorem X13_poll_budget (opts : Options) (env : Env) (thread run : string)
    (s : State) :
  timely 0 (polls env) →
  let final := waitForRunCompletion opts env thread run s in
  ∃ evs,
    trace (fst final) = trace s ++ evs ∧
    (polls_made evs <= 25)%nat ∧
    ((25 <= length (polls env))%nat → snd final ≠ Pending).
Proof.
  intros Htimely final. subst final. unfold waitForRunCompletion.
  destruct (poll_loop_budget opts thread run (clock s) (polls env) "in_progress" 0 s
              Htimely) as (evs & Htr & Hcount & Hsettled); [simpl; lia|].
  exists evs. split_and!; [done|lia|done].
Qed.

Lemma X13_witness :
  ∃ evs,
    trace (fst (waitForRunCompletion Sample.opts Sample.slow "T1" "run_1" Sample.start))
    = trace Sample.start ++ evs ∧
    (polls_made evs <= 25)%nat ∧
    ((25 <= length (polls Sample.slow))%nat →
     snd (waitForRunCompletion Sample.opts Sample.slow "T1" "run_1" Sample.start)
     ≠ Pending).
Proof.
  apply (X13_poll_budget Sample.opts Sample.slow "T1" "run_1" Sample.start).
  vm_compute. repeat split; discriminate.
Defined.

(** The budget is reached: the run of [Sample.slow] is polled 25 times. *)
Example poll_budget_is_reached :
  polls_made (trace (fst (waitForRunCompletion Sample.opts Sample.slow "T1" "run_1"
                            Sample.start))) = 25%nat.
Proof. vm_compute. reflexivity. Qed.

(** ** The order in which Redis enumerates the index *)

Lemma sorted_perm_unique (l l' : list Job) :
  StronglySorted ts_le l →
  StronglySorted ts_le l' →
  l ≡ₚ l' →
  NoDup (map (λ j, timestamp (job_data j)) l) →
  l = l'.
Proof.
  intros Hl. revert l'.
  induction Hl as [|x l Hl IH Hx]; intros l' Hl' Hperm Hnd.
  { by apply Permutation_nil in Hperm. }
  destruct Hl' as [|y l' Hl' Hy].
  { symmetry in Hperm. by apply Permutation_nil in Hperm. }
  simpl in Hnd. apply NoDup_cons in Hnd as [Hfirst Hnd].
  assert (x = y) as ->.
  { assert (x ∈ y :: l') as Hxin by (rewrite <- Hperm; apply list_elem_of_here).
    assert (y ∈ x :: l) as Hyin by (rewrite Hperm; apply list_elem_of_here).
    apply elem_of_cons in Hxin as [Heq|Hxin]; [done|].
    apply elem_of_cons in Hyin as [Heq|Hyin]; [done|].
    eapply Forall_forall in Hx; [|exact Hyin].
    eapply Forall_forall in Hy; [|exact Hxin].
    unfold ts_le in Hx, Hy. destruct Hfirst.
    replace (timestamp (job_data x)) with (timestamp (job_data y)) by lia.
    by apply (list_elem_of_fmap_2 (λ j, timestamp (job_data j))). }
  f_equal. apply IH; [done| |done]. by eapply Permutation_cons_inv.
Qed.

Lemma sort_perm_unique (l l' : list Job) :
  l' ≡ₚ l →
  NoDup (map (λ j, timestamp (job_data j)) l) →
  Js.sort by_timestamp l' = Js.sort by_timestamp l.
Proof.
  intros Hperm Hnd. apply sorted_perm_unique; try apply sort_sorted.
  - by rewrite !sort_perm.
  - eapply NoDup_Permutation_proper; [|exact Hnd].
    apply (fmap_Permutation (λ j, timestamp (job_data j))).
    by rewrite sort_perm.
Qed.

(** X14.  [SMEMBERS] enumerates the index of a thread in no particular
    order, and [getJobsByThreadId] lists the jobs in that order.  In
    well-formed stores the order does not matter to the callers: the sorted
    batch of the worker and the newer jobs that [getNewerJobsByThreadId]
    returns are the same for every enumeration of the same index. *)
Theorem X14_enumeration_order (opts : Options) (thread : string) (s s' : State) :
  well_formed opts s →
  queue (shared s') = queue (shared s) →
  index_of opts thread s' ≡ₚ index_of opts thread s →
  Js.sort by_timestamp (getJobsByThreadId opts thread s')
  = Js.sort by_timestamp (getJobsByThreadId opts thread s) ∧
  ∀ mark, getNewerJobsByThreadId opts thread mark s'
          = getNewerJobsByThreadId opts thread mark s.
Proof.
  intros Hwf Hq Hidx.
  pose proof (listing_timestamps_NoDup opts thread s Hwf) as Hnd.
  assert (getJobsByThreadId opts thread s' ≡ₚ getJobsByThreadId opts thread s) as Hperm.
  { rewrite !getJobsByThreadId_spec.
    fold (index_of opts thread s') (index_of opts thread s).
    rewrite (fetch_unchanged s s') by (intros; by rewrite Hq).
    by apply omap_Permutation. }
  split; [by apply sort_perm_unique|].
  intros mark. unfold getNewerJobsByThreadId. apply sort_perm_unique.
  - by apply filter_Permutation.
  - eapply sublist_NoDup; [exact Hnd|].
    apply (fmap_sublist (λ j, timestamp (job_data j))), sublist_filter.
Qed.

Lemma X14_witness :
  Js.sort by_timestamp
    (getJobsByThreadId Sample.opts "T1" (with_sets (fmap reverse) Sample.after_ABC))
  = Js.sort by_timestamp (getJobsByThreadId Sample.opts "T1" Sample.after_ABC).
Proof.
  apply (X14_enumeration_order Sample.opts "T1" Sample.after_ABC
           (with_sets (fmap reverse) Sample.after_ABC)).
  - apply Sample_after_ABC_well_formed.
  - reflexivity.
  - apply (reverse_Permutation (index_of Sample.opts "T1" Sample.after_ABC)).
Defined.

(** ** The stand-alone helper and the method of the class *)

Lemma Helper_polling_agrees (status : string) :
  status ≠ "requires_action" → Helper.polling status = polling status.
Proof.
  intros Hst. unfold Helper.polling, polling. apply bool_decide_ext.
  rewrite !elem_of_cons. split.
  - intros [?|[?|[?|Hnil]]]; [by left|by right; left|done|by apply elem_of_nil in Hnil].
  - intros [?|[?|Hnil]]; [by left|by right; left|by apply elem_of_nil in Hnil].
Qed.

Lemma Helper_timed_out_agrees (startTime : Z) (s : State) :
  Helper.timed_out startTime 300000 s = (clock s - startTime >? maxWaitTime).
Proof.
  unfold Helper.timed_out, Qle_bool, maxWaitTime. simpl.
  destruct (Z.leb_spec ((clock s - startTime) * 1) 300000);
    destruct (Z.gtb_spec (clock s - startTime) 300000); simpl; lia.
Qed.

Lemma Helper_poll_loop_agrees (opts : Options) (thread run : string) (startTime : Z)
    (script : list PollStep) (status : string) (delay : Q) (s : State) :
  never_reports "requires_action" script →
  status ≠ "requires_action" →
  Helper.poll_loop 15000 300000 thread run startTime script status delay s
  = poll_loop opts thread run startTime script status delay s.
Proof.
  intros Hall. revert status delay s.
  induction Hall as [|p rest Hp _ IH]; intros status delay s Hst; simpl;
    rewrite Helper_polling_agrees, Helper_timed_out_agrees by done; [done|].
  destruct (polling status); [|done].
  destruct (_ >? _); [done|].
  destruct (retrieved p) as [e|checkRun] eqn:Hr; [done|].
  specialize (Hp checkRun eq_refl).
  rewrite (bool_decide_false _ Hp). by apply IH.
Qed.

Lemma Helper_poll_loop_returns_completed (maxDelay maxWaitTime : Q)
    (thread run : string) (startTime : Z) (script : list PollStep) (status : string)
    (delay : Q) (s : State) (result : string) :
  snd (Helper.poll_loop maxDelay maxWaitTime thread run startTime script status delay s)
  = Returned result →
  result = "completed".
Proof.
  revert status delay s.
  induction script as [|p rest IH]; intros status delay s; simpl.
  - repeat case_match; try done. intros [= <-].
    by match goal with H : bool_decide _ = true |- _ => apply bool_decide_eq_true in H end.
  - repeat case_match; try done; try apply IH. intros [= <-].
    by match goal with H : bool_decide _ = true |- _ => apply bool_decide_eq_true in H end.
Qed.

Lemma Helper_poll_loop_waits (maxDelay maxWaitTime : Q) (thread run : string)
    (startTime : Z) (script : list PollStep) (status : string) (delay : Q) (s : State) :
  always_reports "requires_action" script →
  Helper.polling status = true →
  snd (Helper.poll_loop maxDelay maxWaitTime thread run startTime script status delay s)
  ∈ [Pending; Thrown (RunTimeout thread)].
Proof.
  intros Hall. revert status delay s.
  induction Hall as [|p rest (checkRun & Hr & Hst) _ IH]; intros status delay s Hpoll;
    simpl; rewrite Hpoll.
  - destruct (Helper.timed_out _ _ _); simpl;
      [apply list_elem_of_further, list_elem_of_here|apply list_elem_of_here].
  - destruct (Helper.timed_out _ _ _); simpl;
      [apply list_elem_of_further, list_elem_of_here|].
    rewrite Hr, Hst. by apply IH.
Qed.

(** X15.  The stand-alone [waitForRunCompletion], like the method of the
    class, returns nothing but "completed".  Called without options on a run
    that is never reported as requiring action, it does exactly what the
    method does, poll for poll.  But it goes on polling a run that requires
    action: while every poll reports [requires_action] it neither returns nor
    fails with the status of the run, and only the timeout ends it. *)
Theorem X15_helper_and_method :
  (∀ options env thread run s result,
     snd (Helper.waitForRunCompletion options env thread run s) = Returned result →
     result = "completed") ∧
  (∀ opts env thread run s,
     never_reports "requires_action" (polls env) →
     Helper.waitForRunCompletion Helper.no_options env thread run s
     = waitForRunCompletion opts env thread run s) ∧
  (∀ options env thread run s,
     always_reports "requires_action" (polls env) →
     snd (Helper.waitForRunCompletion options env thread run s)
     ∈ [Pending; Thrown (RunTimeout thread)]).
Proof.
  split_and!.
  - intros options env thread run s result. apply Helper_poll_loop_returns_completed.
  - intros opts env thread run s Hnever.
    by apply (Helper_poll_loop_agrees opts thread run (clock s) (polls env)
                "in_progress" initialDelay s).
  - intros options env thread run s Hall. by apply Helper_poll_loop_waits.
Qed.

(** A run that pauses for tool calls and then completes: the helper waits
    for it, the method of a queue without handler fails at the pause. *)
Example helper_waits_where_the_method_fails :
  snd (Helper.waitForRunCompletion Helper.no_options Sample.tooling "T1" "run_1"
         Sample.start) = Returned "completed" ∧
  snd (waitForRunCompletion Sample.opts Sample.tooling "T1" "run_1" Sample.start)
  = Thrown (RunEnded "requires_action" "T1").
Proof. vm_compute. done. Qed.

(** ** From the wake-up to the message sent *)

Lemma listed_same_timestamp (opts : Options) (thread : string) (s : State) (a b : Job) :
  well_formed opts s →
  a ∈ getJobsByThreadId opts thread s →
  b ∈ getJobsByThreadId opts thread s →
  timestamp (job_data a) = timestamp (job_data b) →
  a = b.
Proof.
  intros Hwf Ha Hb Hts.
  destruct (listing_of_well_formed opts thread s a Hwf Ha) as [_ Hida].
  destruct (listing_of_well_formed opts thread s b Hwf Hb) as [_ Hidb].
  apply elem_of_getJobsByThreadId in Ha as [_ Ha].
  apply elem_of_getJobsByThreadId in Hb as [_ Hb].
  rewrite Hida in Ha. rewrite Hidb, <- Hts in Hb.
  destruct a as [ida da], b as [idb db]. simpl in *. congruence.
Qed.

(** X16.  From the wake-up to the message sent.  In well-formed stores with
    the lock of the thread free, a wake-up on the oldest live job of a thread
    sends the texts of all the live jobs of the thread as one message, in
    strictly ascending timestamp order, and then starts one run with the
    instructions of the newest of them (or the default), provided the mark
    can be stored and the message created. *)
Theorem X16_wakeup_sends_the_whole_thread (opts : Options) (env : Env) (job : Job)
    (s : State) :
  let thread := threadId (job_data job) in
  let live := getJobsByThreadId opts thread s in
  let batch := Js.sort by_timestamp live in
  well_formed opts s →
  job ∈ live →
  (∀ j, j ∈ live → timestamp (job_data job) <= timestamp (job_data j)) →
  stored (lock_key opts thread) s = None →
  fails env CSetLastProcessed = None →
  fails env CCreateMessage = None →
  ∃ (newest : Job) (evs : list Event),
    head batch = Some job ∧
    last batch = Some newest ∧
    (∀ j, j ∈ live → j ≠ newest → timestamp (job_data j) < timestamp (job_data newest)) ∧
    trace (fst (worker opts env job s)) =
      trace s ++
      EvCreateMessage thread (Js.join Js.newline (map (λ j, message (job_data j)) batch)) ::
      EvCreateRun thread (assistantId opts)
        (run_instructions
           (Js.or_else (instructions (job_data newest)) (defaultInstructions opts))) :: evs.
Proof.
  intros thread live batch Hwf Hjob Holdest Hfree Hset Hmsg.
  pose proof (listing_timestamps_NoDup opts thread s Hwf) as Hnd. fold live in Hnd.
  pose proof (sort_sorted live) as Hsorted. fold batch in Hsorted.
  pose proof (sort_perm by_timestamp live) as Hperm. fold batch in Hperm.
  assert (Js.sort by_timestamp batch = batch) as Hidem.
  { apply sorted_perm_unique; [apply sort_sorted|done|apply sort_perm|].
    eapply NoDup_Permutation_proper; [|exact Hnd].
    apply (fmap_Permutation (λ j, timestamp (job_data j))).
    by rewrite sort_perm, Hperm. }
  destruct batch as [|oldest more] eqn:Hbatch.
  { rewrite <- Hperm in Hjob. by apply elem_of_nil in Hjob. }
  assert (oldest = job) as ->.
  { assert (oldest ∈ live) as Hin by (rewrite <- Hperm; apply list_elem_of_here).
    apply (listed_same_timestamp opts thread s); [done|done|done|].
    pose proof (Holdest oldest Hin).
    assert (ts_le oldest job) as Hle.
    { apply (sorted_head_oldest oldest more Hsorted). by rewrite Hperm. }
    unfold ts_le in Hle. lia. }
  set (newest := default job (last more)).
  assert (last (job :: more) = Some newest) as Hlast by apply last_cons_default.
  assert (newest ∈ live) as Hnewest.
  { rewrite <- Hperm. by eapply last_Some_elem_of. }
  destruct (processMessages_try_calls opts env thread (job :: more) job more
              (Redis.set (lock_key opts thread) (Js.toString (clock s)) s)
              Hidem Hset Hmsg) as (evs & Hevs).
  exists newest, evs. split_and!; [done|done| |].
  - intros j Hj Hne.
    assert (ts_le j newest) as Hle.
    { apply (sorted_last_newest (job :: more) newest Hsorted Hlast). by rewrite Hperm. }
    assert (timestamp (job_data j) ≠ timestamp (job_data newest)); [|unfold ts_le in Hle; lia].
    intros Heq. apply Hne. by apply (listed_same_timestamp opts thread s).
  - unfold worker. rewrite bind_unfold, gets_unfold. fold thread. fold live.
    destruct live as [|j0 live0] eqn:Hlive; [by apply elem_of_nil in Hjob|].
    fold batch. rewrite Hbatch.
    rewrite bind_unfold, gets_unfold. unfold Redis.exists_.
    unfold stored in Hfree. rewrite Hfree.
    rewrite bool_decide_false by (by intros ?).
    rewrite bool_decide_false by (by intros ?).
    rewrite bind_unfold, processMessages_acquired by done.
    pose proof (try_finally_trace (processMessages_try opts env thread (job :: more))
                  (release_own_lock (lock_key opts thread) (Js.toString (clock s)))
                  (Redis.set (lock_key opts thread) (Js.toString (clock s)) s)
                  (release_own_lock_trace _ _)) as Htr.
    rewrite Hevs in Htr.
    destruct (try_finally _ _ _) as [s1 [r|e|]]; simpl in *; exact Htr.
Qed.

Lemma X16_witness :
  ∃ (newest : Job) (evs : list Event),
    head (Js.sort by_timestamp (getJobsByThreadId Sample.opts "T1" Sample.after_ABC))
    = Some Sample.job_A ∧
    last (Js.sort by_timestamp (getJobsByThreadId Sample.opts "T1" Sample.after_ABC))
    = Some newest ∧
    (∀ j, j ∈ getJobsByThreadId Sample.opts "T1" Sample.after_ABC → j ≠ newest →
          timestamp (job_data j) < timestamp (job_data newest)) ∧
    trace (fst (worker Sample.opts Sample.calm Sample.job_A Sample.after_ABC)) =
      trace Sample.after_ABC ++
      EvCreateMessage "T1"
        (Js.join Js.newline
           (map (λ j, message (job_data j))
              (Js.sort by_timestamp
                 (getJobsByThreadId Sample.opts "T1" Sample.after_ABC)))) ::
      EvCreateRun "T1" (assistantId Sample.opts)
        (run_instructions
           (Js.or_else (instructions (job_data newest))
              (defaultInstructions Sample.opts))) :: evs.
Proof.
  apply (X16_wakeup_sends_the_whole_thread Sample.opts Sample.calm Sample.job_A
           Sample.after_ABC).
  - apply Sample_after_ABC_well_formed.
  - vm_compute. apply list_elem_of_here.
  - intros j Hj. vm_compute in Hj.
    repeat (apply elem_of_cons in Hj as [->|Hj]; [vm_compute; discriminate|]).
    by apply elem_of_nil in Hj.
  - reflexivity.
  - reflexivity.
  - reflexivity.
Defined.
